(** * Lexer.py: a lexer and a prefix (Polish notation) parser

    Shallow embedding of [3_ParsingArithExp/Lexer.py] and proofs about it.

    Modelling conventions.
    - A Python [str] is a list of Unicode code points; a Python [int] is a [Z].
    - A method of [Lexer] is a function from the lexer object before the call
      to the outcome of the call (a returned value or a raised exception)
      paired with the lexer object after the call: an exception does not
      undo the assignments made before it was raised.
    - The two recursive functions are given twice.  The functions with
      suffix [_frames] run under the recursion limit of the interpreter:
      their first argument is the number of nested calls of functions of the
      source that the interpreter still allows, and they raise
      [RecursionError] when it is used up (calls of built-ins and of
      constructors are not counted).  The functions with suffix [_fuel] are
      the same functions in a run that does not reach the limit: they recurse
      on a bound on the call depth and [None] means the bound was too small;
      a bound of [S (length - position)] always suffices.  The lemmas
      [compute_prefix_frames_ideal] and [compute_prefix_frames_enough]
      relate the two: a run that does not raise [RecursionError] has the
      result of the run without limit, and enough frames give that result.
    - [int] has the interpreter's default limit of 4300 digits. *)

From Stdlib Require Import ZArith NArith List Bool Lia String Ascii.
Import ListNotations.

Local Open Scope Z_scope.

(** ** Python built-ins used by the program *)

Definition char := N.
Definition str := list char.

Definition ord (a : ascii) : char := N_of_ascii a.

(** A string literal of the source, as a list of code points. *)
Definition pystr (s : string) : str := map ord (list_ascii_of_string s).

Definition len (s : str) : Z := Z.of_nat (List.length s).

(** [s[i]]: a negative index counts from the end; [None] is [IndexError]. *)
Definition getitem (s : str) (i : Z) : option char :=
  if 0 <=? i then nth_error s (Z.to_nat i)
  else if - len s <=? i then nth_error s (Z.to_nat (len s + i))
  else None.

Definition in_range (c : char) (r : N * N) : bool :=
  (fst r <=? c)%N && (c <=? snd r)%N.

(** Code points of Unicode category Nd (Unicode 14.0, as in CPython 3.11):
    the characters for which [str.isdecimal] holds.  Every range is a whole
    number of runs zero..nine. *)
Definition decimal_ranges : list (N * N) :=
  [ (48, 57); (1632, 1641); (1776, 1785); (1984, 1993); (2406, 2415);
    (2534, 2543); (2662, 2671); (2790, 2799); (2918, 2927); (3046, 3055);
    (3174, 3183); (3302, 3311); (3430, 3439); (3558, 3567); (3664, 3673);
    (3792, 3801); (3872, 3881); (4160, 4169); (4240, 4249); (6112, 6121);
    (6160, 6169); (6470, 6479); (6608, 6617); (6784, 6793); (6800, 6809);
    (6992, 7001); (7088, 7097); (7232, 7241); (7248, 7257); (42528, 42537);
    (43216, 43225); (43264, 43273); (43472, 43481); (43504, 43513);
    (43600, 43609); (44016, 44025); (65296, 65305); (66720, 66729);
    (68912, 68921); (69734, 69743); (69872, 69881); (69942, 69951);
    (70096, 70105); (70384, 70393); (70736, 70745); (70864, 70873);
    (71248, 71257); (71360, 71369); (71472, 71481); (71904, 71913);
    (72016, 72025); (72784, 72793); (73040, 73049); (73120, 73129);
    (92768, 92777); (92864, 92873); (93008, 93017); (120782, 120831);
    (123200, 123209); (123632, 123641); (125264, 125273); (130032, 130041)
  ]%N.

(** Code points with Numeric_Type=Digit that are not decimal (superscripts,
    circled digits, ...): [str.isdigit] holds for them, [int] rejects them. *)
Definition other_digit_ranges : list (N * N) :=
  [ (178, 179); (185, 185); (4969, 4977); (6618, 6618); (8304, 8304);
    (8308, 8313); (8320, 8329); (9312, 9320); (9332, 9340); (9352, 9360);
    (9450, 9450); (9461, 9469); (9471, 9471); (10102, 10110); (10112, 10120);
    (10122, 10130); (68160, 68163); (69216, 69224); (69714, 69722);
    (127232, 127242)
  ]%N.

(** The decimal value of a character of category Nd. *)
Definition decimal_value (c : char) : option Z :=
  match find (in_range c) decimal_ranges with
  | Some r => Some (Z.of_N ((c - fst r) mod 10))
  | None => None
  end.

Definition isdecimal (c : char) : bool :=
  match decimal_value c with Some _ => true | None => false end.

(** [c.isdigit()] for a one-character string. *)
Definition isdigit (c : char) : bool :=
  isdecimal c || existsb (in_range c) other_digit_ranges.

(** Exceptions the program can raise. *)
Inductive exn : Type :=
| ValueError (msg : str)
| IndexError
| KeyError
| RecursionError.

Inductive outcome (A : Type) : Type :=
| Return (a : A)
| Raise (e : exn).
Arguments Return {A} a.
Arguments Raise {A} e.

(** The value of a run of decimal characters read in base ten, most
    significant digit first; [acc] is the value of the digits already read. *)
Fixpoint int_digits (acc : Z) (s : str) : option Z :=
  match s with
  | [] => Some acc
  | c :: s' =>
      match decimal_value c with
      | Some d => int_digits (10 * acc + d) s'
      | None => None
      end
  end.

(** The decimal digit [d] (from 0 to 9) as a character. *)
Definition digit_char (d : Z) : char := (ord "0" + Z.to_N d)%N.

(** The decimal text of a non-negative integer, without leading zeros:
    the digits of [n / 10] (none when [n < 10]) followed by the digit
    [n mod 10].  [fuel] bounds the number of digits. *)
Fixpoint decimal_text_fuel (fuel : nat) (n : Z) : str :=
  match fuel with
  | O => []
  | S fuel' =>
      (if n <? 10 then [] else decimal_text_fuel fuel' (n / 10))
      ++ [digit_char (n mod 10)]
  end.

(** A number has at most as many decimal digits as binary digits. *)
Definition decimal_text (n : Z) : str :=
  decimal_text_fuel (S (Z.to_nat (Z.log2 n))) n.

(** [repr(s)] for a string of printable characters without quote or
    backslash, as the texts of NUM tokens are. *)
Definition repr (s : str) : str := pystr "'" ++ s ++ pystr "'".

(** The message of the [ValueError] that [int] raises on a text that is
    not a number: the representation of the text is cut at 200
    characters. *)
Definition InvalidLiteral (s : str) : exn :=
  ValueError (pystr "invalid literal for int() with base 10: "
              ++ firstn 200 (repr s)).

(** [sys.get_int_max_str_digits()], by default. *)
Definition int_max_str_digits : nat := 4300.

(** The message of the [ValueError] that [int] raises on a text of more
    digits than the limit. *)
Definition ExceedsLimit (digits : nat) : exn :=
  ValueError
    (pystr "Exceeds the limit (4300 digits) for integer string conversion: value has "
     ++ decimal_text (Z.of_nat digits)
     ++ pystr " digits; use sys.set_int_max_str_digits() to increase the limit").

(** The number of decimal characters at the front of [s]. *)
Fixpoint leading_decimals (s : str) : nat :=
  match s with
  | c :: s' => if isdecimal c then S (leading_decimals s') else O
  | [] => O
  end.

(** [int(s)] in base ten, for the strings the program passes to it: a
    non-empty run of [isdigit] characters (lemma [getToken_NUM_text]).
    [int] reads the decimal characters at the front: without any, the text
    is no number; more of them than the limit is an error; a character
    after them that is not decimal makes the text no number; otherwise the
    result is the base-ten value.  (On other strings [int] also accepts a
    sign, underscores and surrounding blanks; no such string is the text of
    a NUM token.) *)
Definition int (s : str) : outcome Z :=
  match leading_decimals s with
  | O => Raise (InvalidLiteral s)
  | S _ =>
      if (int_max_str_digits <? leading_decimals s)%nat then
        Raise (ExceedsLimit (leading_decimals s))
      else
        match int_digits 0 s with
        | Some v => Return v
        | None => Raise (InvalidLiteral s)
        end
  end.

(** ** Exp.py: the expression tree *)

(** Modelled from the spec: the module [Exp] that Lexer.py imports is not
    among the sources.  The spec describes two variants, a numeric leaf
    holding an integer and a binary node with an operator tag (addition,
    subtraction, multiplication, division) and two child expressions. *)
Inductive Expression : Type :=
| Num (num : Z)
| Add (left right : Expression)
| Sub (left right : Expression)
| Mul (left right : Expression)
| Div (left right : Expression).


(** ** Tokens *)

Inductive TokenType : Type :=
| EOF  (* End of file *)
| NLN  (* New line *)
| WSP  (* White Space *)
| NUM  (* Number (integers) *)
| LPR  (* Left parenthesis *)
| RPR  (* Right parenthesis *)
| ADD  (* The token '+' *)
| SUB  (* The token '-' *)
| MUL  (* The token '*' *)
| DIV. (* The token '/' *)

Definition TokenType_value (k : TokenType) : Z :=
  match k with
  | EOF => -1 | NLN => 0 | WSP => 1 | NUM => 2 | LPR => 3 | RPR => 4
  | ADD => 202 | SUB => 203 | MUL => 204 | DIV => 205
  end.

Definition TokenType_eqb (a b : TokenType) : bool :=
  TokenType_value a =? TokenType_value b.

(** [str(k)], as an f-string renders a member of the enumeration. *)
Definition TokenType_str (k : TokenType) : str :=
  pystr match k with
        | EOF => "TokenType.EOF" | NLN => "TokenType.NLN"
        | WSP => "TokenType.WSP" | NUM => "TokenType.NUM"
        | LPR => "TokenType.LPR" | RPR => "TokenType.RPR"
        | ADD => "TokenType.ADD" | SUB => "TokenType.SUB"
        | MUL => "TokenType.MUL" | DIV => "TokenType.DIV"
        end.

Record Token : Type := mkToken { text : str; kind : TokenType }.

(** [k in l] for a list or set of token types. *)
Definition kind_in (k : TokenType) (l : list TokenType) : bool :=
  existsb (TokenType_eqb k) l.

(** [Token.operators] *)
Definition operators : list TokenType := [ADD; SUB; MUL; DIV].

(** ** The lexer *)

Record Lexer : Type := mkLexer {
  input_string : str;
  position : Z;
  length : Z
}.

(** [Lexer.__init__] *)
Definition Lexer_init (input_string : str) : Lexer :=
  {| input_string := input_string; position := 0; length := len input_string |}.

Definition set_position (self : Lexer) (p : Z) : Lexer :=
  {| input_string := input_string self; position := p; length := length self |}.

(** The dictionary [non_numeric_tokens] of [getToken], in source order. *)
Definition non_numeric_tokens : list (char * TokenType) :=
  [ (ord "+", ADD); (ord "-", SUB); (ord "*", MUL); (ord "/", DIV);
    (ord "(", LPR); (ord ")", RPR); (ord " ", WSP); (ord "010", NLN) ].

Definition dict_get {V : Type} (d : list (char * V)) (key : char) : option V :=
  match find (fun kv => (fst kv =? key)%N) d with
  | Some kv => Some (snd kv)
  | None => None
  end.

(** The two f-string messages of the source. *)
Definition UnexpectedCharacter (c : char) : exn :=
  ValueError (pystr "Unexpected character: " ++ [c]).

Definition UnexpectedToken (k : TokenType) : exn :=
  ValueError (pystr "Unexpected token type: " ++ TokenType_str k).

(** The [while] loop of [getToken] that extends [number_text].  [n] bounds
    the number of iterations: the loop stops when [position >= length], so
    [Z.to_nat (length - position)] iterations are never exceeded and the
    case [O] is the exit on [position >= length]. *)
Fixpoint getToken_number (n : nat) (self : Lexer) (number_text : str)
  : outcome Token * Lexer :=
  if position self <? length self then
    match getitem (input_string self) (position self) with
    | None => (Raise IndexError, self)
    | Some c =>
        if isdigit c then
          match n with
          | S n' =>
              getToken_number n' (set_position self (position self + 1))
                (number_text ++ [c])
          | O => (Return (mkToken number_text NUM), self)
          end
        else (Return (mkToken number_text NUM), self)
    end
  else (Return (mkToken number_text NUM), self).

(** [Lexer.getToken] *)
Definition getToken (self : Lexer) : outcome Token * Lexer :=
  if position self >=? length self then (Return (mkToken [] EOF), self)
  else
    match getitem (input_string self) (position self) with
    | None => (Raise IndexError, self)
    | Some current_char =>
        let self := set_position self (position self + 1) in
        if isdigit current_char then
          getToken_number (Z.to_nat (length self - position self)) self
            [current_char]
        else
          match dict_get non_numeric_tokens current_char with
          | None => (Raise (UnexpectedCharacter current_char), self)
          | Some k => (Return (mkToken [current_char] k), self)
          end
    end.

(** [Lexer.next_valid_token] in a run that does not reach the recursion
    limit ([next_valid_token_frames] is the function under the limit): [n]
    bounds the depth of the recursion. *)
Fixpoint next_valid_token_fuel (n : nat) (self : Lexer)
  : option (outcome Token * Lexer) :=
  match n with
  | O => None
  | S n' =>
      match getToken self with
      | (Return token, self) =>
          if kind_in (kind token) [WSP; NLN] then next_valid_token_fuel n' self
          else Some (Return token, self)
      | (Raise e, self) => Some (Raise e, self)
      end
  end.

(** The call depth that suffices from the state [self]. *)
Definition depth (self : Lexer) : nat :=
  S (Z.to_nat (length self - position self)).

Definition next_valid_token (self : Lexer) : option (outcome Token * Lexer) :=
  next_valid_token_fuel (depth self) self.

(** The dictionary [operations_map] of [compute_prefix]. *)
Definition operations_map (k : TokenType)
  : option (Expression -> Expression -> Expression) :=
  match k with
  | ADD => Some Add
  | SUB => Some Sub
  | MUL => Some Mul
  | DIV => Some Div
  | _ => None
  end.

(** [compute_prefix] in a run that does not reach the recursion limit
    ([compute_prefix_frames] is the function under the limit): [n] bounds
    the depth of the recursion. *)
Fixpoint compute_prefix_fuel (n : nat) (lexer : Lexer)
  : option (outcome Expression * Lexer) :=
  match n with
  | O => None
  | S n' =>
      match next_valid_token lexer with
      | None => None
      | Some (Raise e, lexer) => Some (Raise e, lexer)
      | Some (Return token, lexer) =>
          if TokenType_eqb (kind token) NUM then
            match int (text token) with
            | Return v => Some (Return (Num v), lexer)
            | Raise e => Some (Raise e, lexer)
            end
          else if kind_in (kind token) operators then
            match compute_prefix_fuel n' lexer with
            | None => None
            | Some (Raise e, lexer) => Some (Raise e, lexer)
            | Some (Return a, lexer) =>
                match compute_prefix_fuel n' lexer with
                | None => None
                | Some (Raise e, lexer) => Some (Raise e, lexer)
                | Some (Return b, lexer) =>
                    match operations_map (kind token) with
                    | Some operation => Some (Return (operation a b), lexer)
                    | None => Some (Raise KeyError, lexer)
                    end
                end
            end
          else Some (Raise (UnexpectedToken (kind token)), lexer)
      end
  end.

Definition compute_prefix (lexer : Lexer) : option (outcome Expression * Lexer) :=
  compute_prefix_fuel (depth lexer) lexer.

(** ** The two recursive functions under the recursion limit *)

(** A call of [getToken] when the interpreter allows [frames] more nested
    calls. *)
Definition getToken_frames (frames : nat) (self : Lexer)
  : outcome Token * Lexer :=
  match frames with
  | O => (Raise RecursionError, self)
  | S _ => getToken self
  end.

(** [Lexer.next_valid_token] when the interpreter allows [frames] more
    nested calls: the call takes one, and its calls of [getToken] and of
    itself have one less. *)
Fixpoint next_valid_token_frames (frames : nat) (self : Lexer)
  : outcome Token * Lexer :=
  match frames with
  | O => (Raise RecursionError, self)
  | S frames' =>
      match getToken_frames frames' self with
      | (Return token, self) =>
          if kind_in (kind token) [WSP; NLN] then
            next_valid_token_frames frames' self
          else (Return token, self)
      | (Raise e, self) => (Raise e, self)
      end
  end.

(** [compute_prefix] when the interpreter allows [frames] more nested
    calls. *)
Fixpoint compute_prefix_frames (frames : nat) (lexer : Lexer)
  : outcome Expression * Lexer :=
  match frames with
  | O => (Raise RecursionError, lexer)
  | S frames' =>
      match next_valid_token_frames frames' lexer with
      | (Raise e, lexer) => (Raise e, lexer)
      | (Return token, lexer) =>
          if TokenType_eqb (kind token) NUM then
            match int (text token) with
            | Return v => (Return (Num v), lexer)
            | Raise e => (Raise e, lexer)
            end
          else if kind_in (kind token) operators then
            match compute_prefix_frames frames' lexer with
            | (Raise e, lexer) => (Raise e, lexer)
            | (Return a, lexer) =>
                match compute_prefix_frames frames' lexer with
                | (Raise e, lexer) => (Raise e, lexer)
                | (Return b, lexer) =>
                    match operations_map (kind token) with
                    | Some operation => (Return (operation a b), lexer)
                    | None => (Raise KeyError, lexer)
                    end
                end
            end
          else (Raise (UnexpectedToken (kind token)), lexer)
      end
  end.

(** ** The lexer state as the characters still to be read

    A lexer whose position lies within its input is determined by the input
    and the characters that remain from the position on.  The functions
    below restate the three operations on the remaining characters alone;
    the lemmas [getToken_rest], [next_valid_token_fuel_rest] and
    [compute_prefix_fuel_rest] show that the operations above compute
    exactly these. *)

(** The invariant of a lexer object. *)
Definition wf (self : Lexer) : Prop :=
  length self = len (input_string self)
  /\ 0 <= position self <= length self.

(** The lexer over input [s] with the characters [r] still to be read. *)
Definition lexer_rest (s r : str) : Lexer :=
  {| input_string := s; position := len s - len r; length := len s |}.

(** The characters from the position on. *)
Definition rest (self : Lexer) : str :=
  skipn (Z.to_nat (position self)) (input_string self).

(** The longest run of digit characters at the front, and what follows. *)
Fixpoint span_digits (l : str) : str * str :=
  match l with
  | c :: l' =>
      if isdigit c then
        let (ds, r) := span_digits l' in (c :: ds, r)
      else ([], l)
  | [] => ([], [])
  end.

Definition digit_run (l : str) : str := fst (span_digits l).
Definition after_run (l : str) : str := snd (span_digits l).

Definition scan (l : str) : outcome Token * str :=
  match l with
  | [] => (Return (mkToken [] EOF), [])
  | c :: l' =>
      if isdigit c then
        (Return (mkToken (c :: digit_run l') NUM), after_run l')
      else
        match dict_get non_numeric_tokens c with
        | None => (Raise (UnexpectedCharacter c), l')
        | Some k => (Return (mkToken [c] k), l')
        end
  end.

(** A space or a newline. *)
Definition is_blank (c : char) : bool :=
  (c =? ord " ")%N || (c =? ord "010")%N.

Fixpoint skip_blank (l : str) : str :=
  match l with
  | c :: l' => if is_blank c then skip_blank l' else l
  | [] => []
  end.

Fixpoint prefix_rest_fuel (n : nat) (l : str)
  : option (outcome Expression * str) :=
  match n with
  | O => None
  | S n' =>
      match scan (skip_blank l) with
      | (Raise e, r) => Some (Raise e, r)
      | (Return token, r) =>
          if TokenType_eqb (kind token) NUM then
            match int (text token) with
            | Return v => Some (Return (Num v), r)
            | Raise e => Some (Raise e, r)
            end
          else if kind_in (kind token) operators then
            match prefix_rest_fuel n' r with
            | None => None
            | Some (Raise e, r) => Some (Raise e, r)
            | Some (Return a, r) =>
                match prefix_rest_fuel n' r with
                | None => None
                | Some (Raise e, r) => Some (Raise e, r)
                | Some (Return b, r) =>
                    match operations_map (kind token) with
                    | Some operation => Some (Return (operation a b), r)
                    | None => Some (Raise KeyError, r)
                    end
                end
            end
          else Some (Raise (UnexpectedToken (kind token)), r)
      end
  end.

(** [compute_prefix] on the remaining characters. *)
Definition prefix_rest (r : str) : option (outcome Expression * str) :=
  prefix_rest_fuel (S (List.length r)) r.

(** [r] is what remains of [s] after some prefix. *)
Definition suffix (r s : str) : Prop := exists pre, s = pre ++ r.

(** The result of [compute_prefix_fuel] on a lexer, from the result on its
    remaining characters. *)
Definition lift_rest (s : str) (x : option (outcome Expression * str))
  : option (outcome Expression * Lexer) :=
  match x with
  | Some (o, r') => Some (o, lexer_rest s r')
  | None => None
  end.

(** ** Definitions used to state the properties *)

Definition head_isdigit (l : str) : bool :=
  match l with
  | c :: _ => isdigit c
  | [] => false
  end.



(** [ins c prev u v]: [v] is [u] with the character [c] inserted at one
    place that is not inside a run of digits, where [prev] tells whether
    the character before [u] is a digit. *)
Inductive ins (c : char) : bool -> str -> str -> Prop :=
| ins_here (prev : bool) (u : str) :
    prev && head_isdigit u = false -> ins c prev u (c :: u)
| ins_skip (prev : bool) (a : char) (u v : str) :
    ins c (isdigit a) u v -> ins c prev (a :: u) (a :: v).

(** The eight characters of [non_numeric_tokens]. *)
Definition recognized : list char :=
  [ord "+"; ord "-"; ord "*"; ord "/"; ord "("; ord ")"; ord " "; ord "010"].

(** The lexer after [n] calls of [getToken], whatever their outcomes. *)
Fixpoint scans (n : nat) (self : Lexer) : Lexer :=
  match n with
  | O => self
  | S n' => snd (getToken (scans n' self))
  end.

(** The result of a call without the lexer state it leaves. *)
Definition result_of {A S : Type} (x : option (outcome A * S))
  : option (outcome A) :=
  option_map fst x.

(** ** The generator [Lexer.tokens] *)

(** What a request for the next item of an iterator gives: an item, the
    end of the iteration, or an exception raised by the body. *)
Inductive item : Type :=
| Yield (token : Token)
| StopIteration
| Throw (e : exn).

(** The frame of the generator.  Before the first request and after each
    [yield] the body goes on with [token = self.getToken()] followed by the
    test of the [while]: both are the state [Suspended].  Once the body has
    returned or raised, the generator is [Finished]. *)
Inductive generator : Type :=
| Suspended
| Finished.

(** The body of [tokens] from [token = self.getToken()] up to the next
    [yield], the end of the loop or an exception; [n] bounds the number of
    iterations of the [while]. *)
Fixpoint tokens_resume_fuel (n : nat) (self : Lexer) : option (item * Lexer) :=
  match n with
  | O => None
  | S n' =>
      match getToken self with
      | (Raise e, self) => Some (Throw e, self)
      | (Return token, self) =>
          if TokenType_eqb (kind token) EOF then Some (StopIteration, self)
          else if kind_in (kind token) [WSP; NLN] then
            tokens_resume_fuel n' self
          else Some (Yield token, self)
      end
  end.

(** [next(g)] for the generator [g = lexer.tokens()]: the lexer is the
    object the generator shares with its creator. *)
Definition tokens_next (g : generator) (self : Lexer)
  : option (item * generator * Lexer) :=
  match g with
  | Finished => Some (StopIteration, Finished, self)
  | Suspended =>
      match tokens_resume_fuel (depth self) self with
      | None => None
      | Some (Yield token, self) => Some (Yield token, Suspended, self)
      | Some (StopIteration, self) => Some (StopIteration, Finished, self)
      | Some (Throw e, self) => Some (Throw e, Finished, self)
      end
  end.

(** Iterating [g] to its end: the tokens received, the exception that ended
    the iteration if one did, and the lexer left.  [n] bounds the number of
    requests. *)
Fixpoint tokens_list_fuel (n : nat) (g : generator) (self : Lexer)
  : option (list Token * option exn * Lexer) :=
  match n with
  | O => None
  | S n' =>
      match tokens_next g self with
      | None => None
      | Some (StopIteration, _, self) => Some ([], None, self)
      | Some (Throw e, _, self) => Some ([], Some e, self)
      | Some (Yield token, g, self) =>
          match tokens_list_fuel n' g self with
          | None => None
          | Some (ts, r, self) => Some (token :: ts, r, self)
          end
      end
  end.

(** Iterating a fresh [self.tokens()] to its end. *)
Definition tokens_list (self : Lexer)
  : option (list Token * option exn * Lexer) :=
  tokens_list_fuel (depth self) Suspended self.

(** The item that stands for an outcome of [next_valid_token]. *)
Definition item_of (o : outcome Token) : item :=
  match o with
  | Return token =>
      if TokenType_eqb (kind token) EOF then StopIteration else Yield token
  | Raise e => Throw e
  end.

(** [tokens_list] on the remaining characters. *)
Fixpoint tokens_rest_fuel (n : nat) (r : str)
  : option (list Token * option exn * str) :=
  match n with
  | O => None
  | S n' =>
      match scan (skip_blank r) with
      | (Raise e, r1) => Some ([], Some e, r1)
      | (Return token, r1) =>
          if TokenType_eqb (kind token) EOF then Some ([], None, r1)
          else
            match tokens_rest_fuel n' r1 with
            | None => None
            | Some (ts, x, r2) => Some (token :: ts, x, r2)
            end
      end
  end.

Definition tokens_rest (r : str) : option (list Token * option exn * str) :=
  tokens_rest_fuel (S (List.length r)) r.

(** The result of [tokens_list] on a lexer, from the result on its
    remaining characters. *)
Definition lift_tokens (s : str) (x : option (list Token * option exn * str))
  : option (list Token * option exn * Lexer) :=
  match x with
  | Some (ts, e, r') => Some (ts, e, lexer_rest s r')
  | None => None
  end.

(** The texts of a list of tokens, one after the other. *)
Definition texts (ts : list Token) : str := List.concat (map text ts).

(** A text without its spaces and newlines. *)
Definition drop_blanks (s : str) : str :=
  filter (fun c => negb (is_blank c)) s.

(** No leaf of the tree holds a negative number. *)
Fixpoint leaves_nonneg (e : Expression) : bool :=
  match e with
  | Num n => 0 <=? n
  | Add a b | Sub a b | Mul a b | Div a b => leaves_nonneg a && leaves_nonneg b
  end.



(** [spells e ts]: the tokens [ts] are the tree [e] read in prefix order,
    an operator token before the tokens of its two operands and a NUM token
    for each leaf, whose text [int] converts to the number of the leaf. *)
Inductive spells : Expression -> list Token -> Prop :=
| spells_num (token : Token) (v : Z) :
    kind token = NUM -> int (text token) = Return v ->
    spells (Num v) [token]
| spells_op (token : Token) (operation : Expression -> Expression -> Expression)
    (a b : Expression) (ta tb : list Token) :
    operations_map (kind token) = Some operation ->
    spells a ta -> spells b tb ->
    spells (operation a b) (token :: ta ++ tb).

(** The exceptions [compute_prefix] can end with when the characters [r]
    remain and the recursion limit is not reached: the error of [getToken]
    for a character of [r] that is no digit and not recognized, the error
    for a token that starts no expression, the error of [int] for a run of
    digits that are not all decimal, or the error of [int] for more digits
    than its limit. *)
Inductive parse_error (r : str) : exn -> Prop :=
| parse_error_character (c : char) :
    In c r -> isdigit c = false -> ~ In c recognized ->
    parse_error r (UnexpectedCharacter c)
| parse_error_token (k : TokenType) :
    In k [EOF; LPR; RPR] -> parse_error r (UnexpectedToken k)
| parse_error_literal (t : str) :
    forallb isdigit t = true -> forallb isdecimal t = false ->
    parse_error r (InvalidLiteral t)
| parse_error_limit (digits : nat) :
    (int_max_str_digits < digits)%nat ->
    parse_error r (ExceedsLimit digits).

(** ** Basic facts *)

Lemma TokenType_eqb_eq (a b : TokenType) : TokenType_eqb a b = true <-> a = b.
Proof.
  destruct a, b; cbv; split; intro H; try reflexivity; discriminate.
Qed.

Lemma len_nil : len [] = 0.
Proof. reflexivity. Qed.

Lemma len_cons (c : char) (s : str) : len (c :: s) = 1 + len s.
Proof. unfold len; cbn [List.length]; lia. Qed.

Lemma len_app (a b : str) : len (a ++ b) = len a + len b.
Proof. unfold len; rewrite length_app; lia. Qed.

Lemma len_nonneg (s : str) : 0 <= len s.
Proof. unfold len; lia. Qed.

Lemma getitem_rest (pre : str) (c : char) (r : str) :
  getitem (pre ++ c :: r) (len (pre ++ c :: r) - len (c :: r)) = Some c.
Proof.
  rewrite len_app.
  replace (len pre + len (c :: r) - len (c :: r)) with (len pre) by lia.
  unfold getitem.
  pose proof (len_nonneg pre) as Hp.
  destruct (0 <=? len pre) eqn:E; [| apply Z.leb_gt in E; lia].
  unfold len; rewrite Nat2Z.id, nth_error_app2 by lia.
  rewrite Nat.sub_diag; reflexivity.
Qed.

Lemma lexer_rest_advance (s : str) (c : char) (r : str) :
  set_position (lexer_rest s (c :: r)) (position (lexer_rest s (c :: r)) + 1)
  = lexer_rest s r.
Proof.
  unfold set_position, lexer_rest; cbn [input_string position length].
  f_equal; rewrite len_cons; lia.
Qed.

Lemma span_digits_cons_true (c : char) (l : str) :
  isdigit c = true ->
  digit_run (c :: l) = c :: digit_run l /\ after_run (c :: l) = after_run l.
Proof.
  intro H; unfold digit_run, after_run; cbn [span_digits]; rewrite H.
  destruct (span_digits l); split; reflexivity.
Qed.

Lemma span_digits_cons_false (c : char) (l : str) :
  isdigit c = false ->
  digit_run (c :: l) = [] /\ after_run (c :: l) = c :: l.
Proof.
  intro H; unfold digit_run, after_run; cbn [span_digits]; rewrite H.
  split; reflexivity.
Qed.

Lemma span_digits_app (l : str) : l = digit_run l ++ after_run l.
Proof.
  induction l as [| c l IH]; [reflexivity |].
  destruct (isdigit c) eqn:E.
  - destruct (span_digits_cons_true c l E) as [-> ->].
    cbn [app]; f_equal; exact IH.
  - destruct (span_digits_cons_false c l E) as [-> ->]; reflexivity.
Qed.

Lemma digit_run_digits (l : str) : forallb isdigit (digit_run l) = true.
Proof.
  induction l as [| c l IH]; [reflexivity |].
  destruct (isdigit c) eqn:E.
  - destruct (span_digits_cons_true c l E) as [-> _].
    cbn [forallb]; rewrite E, IH; reflexivity.
  - destruct (span_digits_cons_false c l E) as [-> _]; reflexivity.
Qed.

(** What follows the run does not begin with a digit: the run is maximal. *)
Lemma after_run_head (l : str) : head_isdigit (after_run l) = false.
Proof.
  induction l as [| c l IH]; [reflexivity |].
  destruct (isdigit c) eqn:E.
  - destruct (span_digits_cons_true c l E) as [_ ->]; exact IH.
  - destruct (span_digits_cons_false c l E) as [_ ->]; exact E.
Qed.

(** ** The operations on a lexer are the operations on its remaining
       characters *)

Lemma getToken_number_rest (r : str) :
  forall (pre : str) (n : nat) (txt : str),
    (List.length r <= n)%nat ->
    getToken_number n (lexer_rest (pre ++ r) r) txt
    = (Return (mkToken (txt ++ digit_run r) NUM),
       lexer_rest (pre ++ r) (after_run r)).
Proof.
  induction r as [| c r IH]; intros pre n txt Hn.
  - assert (E : (position (lexer_rest (pre ++ []) []) <?
                 length (lexer_rest (pre ++ []) [])) = false).
    { apply Z.ltb_ge; cbn [lexer_rest position length]; rewrite len_nil; lia. }
    destruct n; cbn [getToken_number]; rewrite E;
      cbn [digit_run after_run span_digits fst snd]; rewrite (app_nil_r txt);
      reflexivity.
  - assert (E : (position (lexer_rest (pre ++ c :: r) (c :: r)) <?
                 length (lexer_rest (pre ++ c :: r) (c :: r))) = true).
    { apply Z.ltb_lt; cbn [lexer_rest position length]; rewrite len_cons.
      pose proof (len_nonneg r); lia. }
    destruct n as [| n]; [cbn [List.length] in Hn; lia |].
    cbn [getToken_number]; rewrite E.
    change (position (lexer_rest (pre ++ c :: r) (c :: r)))
      with (len (pre ++ c :: r) - len (c :: r)) at 1.
    change (input_string (lexer_rest (pre ++ c :: r) (c :: r)))
      with (pre ++ c :: r).
    rewrite getitem_rest.
    destruct (isdigit c) eqn:D.
    + rewrite lexer_rest_advance.
      destruct (span_digits_cons_true c r D) as [-> ->].
      replace (pre ++ c :: r) with ((pre ++ [c]) ++ r)
        by (rewrite <- app_assoc; reflexivity).
      rewrite IH by (cbn [List.length] in Hn; lia).
      rewrite <- app_assoc; reflexivity.
    + destruct (span_digits_cons_false c r D) as [-> ->].
      rewrite (app_nil_r txt); reflexivity.
Qed.

Lemma getToken_rest (pre r : str) :
  getToken (lexer_rest (pre ++ r) r)
  = (fst (scan r), lexer_rest (pre ++ r) (snd (scan r))).
Proof.
  unfold getToken.
  destruct r as [| c r].
  - assert (E : (position (lexer_rest (pre ++ []) []) >=?
                 length (lexer_rest (pre ++ []) [])) = true).
    { apply Z.geb_le; cbn [lexer_rest position length]; rewrite len_nil; lia. }
    rewrite E; reflexivity.
  - assert (E : (position (lexer_rest (pre ++ c :: r) (c :: r)) >=?
                 length (lexer_rest (pre ++ c :: r) (c :: r))) = false).
    { rewrite Z.geb_leb; apply Z.leb_gt.
      cbn [lexer_rest position length]; rewrite len_cons.
      pose proof (len_nonneg r); lia. }
    rewrite E.
    change (position (lexer_rest (pre ++ c :: r) (c :: r)))
      with (len (pre ++ c :: r) - len (c :: r)) at 1.
    change (input_string (lexer_rest (pre ++ c :: r) (c :: r)))
      with (pre ++ c :: r).
    rewrite getitem_rest.
    cbv zeta. rewrite lexer_rest_advance.
    cbn [scan].
    destruct (isdigit c) eqn:D.
    + replace (Z.to_nat (length (lexer_rest (pre ++ c :: r) r)
                         - position (lexer_rest (pre ++ c :: r) r)))
        with (List.length r)
        by (cbn [lexer_rest position length]; unfold len; lia).
      replace (pre ++ c :: r) with ((pre ++ [c]) ++ r)
        by (rewrite <- app_assoc; reflexivity).
      rewrite getToken_number_rest by lia.
      reflexivity.
    + destruct (dict_get non_numeric_tokens c); reflexivity.
Qed.

Lemma suffix_refl (s : str) : suffix s s.
Proof. exists []; reflexivity. Qed.

Lemma suffix_trans (a b c : str) : suffix a b -> suffix b c -> suffix a c.
Proof.
  intros [p ->] [q ->]; exists (q ++ p); rewrite app_assoc; reflexivity.
Qed.

Lemma suffix_len (r s : str) : suffix r s -> len r <= len s.
Proof. intros [p ->]; rewrite len_app; pose proof (len_nonneg p); lia. Qed.

Lemma suffix_nil (r : str) : suffix r [] -> r = [].
Proof.
  intros [p H]; symmetry in H; apply app_eq_nil in H; tauto.
Qed.

Lemma getToken_suffix (s r : str) :
  suffix r s ->
  getToken (lexer_rest s r) = (fst (scan r), lexer_rest s (snd (scan r))).
Proof. intros [pre ->]; apply getToken_rest. Qed.

(** A scan returns the characters that follow the ones it consumed, and it
    consumes at least one character unless none remains. *)
Lemma scan_consumes (r : str) :
  exists c, r = c ++ snd (scan r) /\ (r <> [] -> c <> []).
Proof.
  destruct r as [| a r]; [exists []; split; [reflexivity | congruence] |].
  cbn [scan]; destruct (isdigit a).
  - exists (a :: digit_run r); cbn [snd app]; split; [| discriminate].
    f_equal; apply span_digits_app.
  - exists [a]; split; [| discriminate].
    destruct (dict_get non_numeric_tokens a); reflexivity.
Qed.

Lemma scan_suffix (r : str) : suffix (snd (scan r)) r.
Proof. destruct (scan_consumes r) as [c [H _]]; exists c; exact H. Qed.

Lemma skip_blank_suffix (r : str) : suffix (skip_blank r) r.
Proof.
  induction r as [| a r IH]; [apply suffix_refl |].
  cbn [skip_blank]; destruct (is_blank a); [| apply suffix_refl].
  destruct IH as [p H]; exists (a :: p); cbn [app]; f_equal; exact H.
Qed.

Lemma skip_blank_head (r : str) :
  match skip_blank r with
  | [] => True
  | c :: _ => is_blank c = false
  end.
Proof.
  induction r as [| a r IH]; [exact I |].
  cbn [skip_blank]; destruct (is_blank a) eqn:E; [exact IH | exact E].
Qed.

(** A blank is scanned as a WSP or NLN token, and only a blank is. *)
Lemma scan_blank (c : char) (r : str) :
  is_blank c = true ->
  exists k, scan (c :: r) = (Return (mkToken [c] k), r)
            /\ kind_in k [WSP; NLN] = true.
Proof.
  unfold is_blank; intro H; apply orb_true_iff in H.
  destruct H as [H | H]; apply N.eqb_eq in H; subst c.
  - exists WSP; split; reflexivity.
  - exists NLN; split; reflexivity.
Qed.

Lemma dict_get_not_blank (c : char) (k : TokenType) :
  is_blank c = false ->
  dict_get non_numeric_tokens c = Some k ->
  kind_in k [WSP; NLN] = false.
Proof.
  unfold is_blank, dict_get, non_numeric_tokens; cbn [find fst snd].
  intros Hb.
  apply orb_false_iff in Hb; destruct Hb as [H1 H2].
  rewrite (N.eqb_sym c) in H1, H2.
  repeat match goal with
         | |- context [(?a =? c)%N] =>
             destruct (a =? c)%N eqn:?;
             [ intro Hk; injection Hk as <-; try reflexivity; congruence |]
         end.
  discriminate.
Qed.

Lemma scan_not_blank (c : char) (r : str) (tok : Token) (r' : str) :
  is_blank c = false ->
  scan (c :: r) = (Return tok, r') ->
  kind_in (kind tok) [WSP; NLN] = false.
Proof.
  intros Hb; cbn [scan]; destruct (isdigit c).
  - intro H; injection H as <- _; reflexivity.
  - destruct (dict_get non_numeric_tokens c) as [k |] eqn:E; [| discriminate].
    intro H; injection H as <- _; cbn [kind].
    exact (dict_get_not_blank c k Hb E).
Qed.

Lemma scan_skip_blank_kind (l : str) (tok : Token) (r' : str) :
  scan (skip_blank l) = (Return tok, r') ->
  kind_in (kind tok) [WSP; NLN] = false.
Proof.
  pose proof (skip_blank_head l) as Hh.
  destruct (skip_blank l) as [| c r].
  - cbn [scan]; intro H; injection H as <- _; reflexivity.
  - apply scan_not_blank; exact Hh.
Qed.

Lemma next_valid_token_fuel_rest (r : str) :
  forall (pre : str) (n : nat),
    (List.length r < n)%nat ->
    next_valid_token_fuel n (lexer_rest (pre ++ r) r)
    = Some (fst (scan (skip_blank r)),
            lexer_rest (pre ++ r) (snd (scan (skip_blank r)))).
Proof.
  induction r as [| c r IH]; intros pre n Hn;
    (destruct n as [| n]; [lia |]); cbn [next_valid_token_fuel];
    rewrite getToken_rest.
  - reflexivity.
  - cbn [skip_blank]; destruct (is_blank c) eqn:Hb.
    + destruct (scan_blank c r Hb) as [k [-> Hk]]; cbn [fst snd kind].
      rewrite Hk.
      replace (pre ++ c :: r) with ((pre ++ [c]) ++ r)
        by (rewrite <- app_assoc; reflexivity).
      apply IH; cbn [List.length] in Hn; lia.
    + destruct (scan (c :: r)) as [[tok | e] r'] eqn:E; cbn [fst snd];
        [| reflexivity].
      rewrite (scan_not_blank c r tok r' Hb E); reflexivity.
Qed.

Lemma depth_lexer_rest (s r : str) :
  suffix r s -> depth (lexer_rest s r) = S (List.length r).
Proof.
  intros _; unfold depth, lexer_rest, len; cbn [position length]; lia.
Qed.

Lemma next_valid_token_suffix (s r : str) :
  suffix r s ->
  next_valid_token (lexer_rest s r)
  = Some (fst (scan (skip_blank r)), lexer_rest s (snd (scan (skip_blank r)))).
Proof.
  intros Hs; unfold next_valid_token; rewrite (depth_lexer_rest s r Hs).
  destruct Hs as [pre ->]; apply next_valid_token_fuel_rest; lia.
Qed.

Lemma scan_skip_blank_suffix (r : str) : suffix (snd (scan (skip_blank r))) r.
Proof.
  eapply suffix_trans; [apply scan_suffix | apply skip_blank_suffix].
Qed.

Lemma prefix_rest_fuel_suffix (n : nat) :
  forall (r : str) (o : outcome Expression) (r' : str),
    prefix_rest_fuel n r = Some (o, r') -> suffix r' r.
Proof.
  induction n as [| n IH]; intros r o r'; [discriminate |].
  cbn [prefix_rest_fuel].
  pose proof (scan_skip_blank_suffix r) as Hs.
  destruct (scan (skip_blank r)) as [[tok | e] r1]; cbn [snd] in Hs.
  - destruct (TokenType_eqb (kind tok) NUM).
    + destruct (int (text tok)); intro H; injection H as _ <-; exact Hs.
    + destruct (kind_in (kind tok) operators);
        [| intro H; injection H as _ <-; exact Hs].
      destruct (prefix_rest_fuel n r1) as [[[a | e] r2] |] eqn:E1;
        [| intro H; injection H as _ <-;
           exact (suffix_trans _ _ _ (IH _ _ _ E1) Hs) | discriminate].
      pose proof (suffix_trans _ _ _ (IH _ _ _ E1) Hs) as Hs2.
      destruct (prefix_rest_fuel n r2) as [[[b | e] r3] |] eqn:E2;
        [| intro H; injection H as _ <-;
           exact (suffix_trans _ _ _ (IH _ _ _ E2) Hs2) | discriminate].
      destruct (operations_map (kind tok)); intro H; injection H as _ <-;
        exact (suffix_trans _ _ _ (IH _ _ _ E2) Hs2).
  - intro H; injection H as _ <-; exact Hs.
Qed.

Lemma compute_prefix_fuel_rest (n : nat) :
  forall (s r : str),
    suffix r s ->
    compute_prefix_fuel n (lexer_rest s r) = lift_rest s (prefix_rest_fuel n r).
Proof.
  induction n as [| n IH]; intros s r Hs; [reflexivity |].
  cbn [compute_prefix_fuel prefix_rest_fuel].
  rewrite (next_valid_token_suffix s r Hs).
  pose proof (suffix_trans _ _ _ (scan_skip_blank_suffix r) Hs) as Hs1.
  destruct (scan (skip_blank r)) as [[tok | e] r1]; cbn [fst snd] in *;
    [| reflexivity].
  destruct (TokenType_eqb (kind tok) NUM).
  { destruct (int (text tok)); reflexivity. }
  destruct (kind_in (kind tok) operators); [| reflexivity].
  rewrite (IH s r1 Hs1).
  destruct (prefix_rest_fuel n r1) as [[[a | e] r2] |] eqn:E1; cbn [lift_rest];
    [| reflexivity | reflexivity].
  pose proof (suffix_trans _ _ _ (prefix_rest_fuel_suffix n _ _ _ E1) Hs1)
    as Hs2.
  rewrite (IH s r2 Hs2).
  destruct (prefix_rest_fuel n r2) as [[[b | e] r3] |]; cbn [lift_rest];
    [| reflexivity | reflexivity].
  destruct (operations_map (kind tok)); reflexivity.
Qed.

(** ** Termination: a bound of one more than the remaining characters
       suffices *)

Lemma suffix_length (r s : str) :
  suffix r s -> (List.length r <= List.length s)%nat.
Proof. intros [p ->]; rewrite length_app; lia. Qed.

Lemma scan_advance (r : str) (tok : Token) (r1 : str) :
  scan r = (Return tok, r1) ->
  kind tok <> EOF ->
  (List.length r1 < List.length r)%nat.
Proof.
  intros E Hk.
  destruct (scan_consumes r) as [c [Hc Hne]]; rewrite E in Hc; cbn [snd] in Hc.
  destruct r as [| a r].
  - cbn [scan] in E; injection E as <- _; exfalso; apply Hk; reflexivity.
  - destruct c as [| x c]; [exfalso; apply Hne; [discriminate | reflexivity] |].
    rewrite Hc; cbn [app List.length]; rewrite length_app; lia.
Qed.

Lemma scan_operator_advance (r : str) (tok : Token) (r1 : str) :
  scan (skip_blank r) = (Return tok, r1) ->
  kind_in (kind tok) operators = true ->
  (List.length r1 < List.length r)%nat.
Proof.
  intros E Hop.
  assert (Hk : kind tok <> EOF) by (intro H; rewrite H in Hop; discriminate).
  pose proof (scan_advance _ _ _ E Hk).
  pose proof (suffix_length _ _ (skip_blank_suffix r)); lia.
Qed.

Lemma prefix_rest_fuel_total (n : nat) :
  forall r : str,
    (List.length r < n)%nat -> exists x, prefix_rest_fuel n r = Some x.
Proof.
  induction n as [| n IH]; intros r Hn; [lia |].
  cbn [prefix_rest_fuel].
  destruct (scan (skip_blank r)) as [[tok | e] r1] eqn:E; [| eauto].
  destruct (TokenType_eqb (kind tok) NUM); [destruct (int (text tok)); eauto |].
  destruct (kind_in (kind tok) operators) eqn:Hop; [| eauto].
  pose proof (scan_operator_advance r tok r1 E Hop) as H1.
  destruct (IH r1 ltac:(lia)) as [[[a | e] r2] E1]; rewrite E1; [| eauto].
  pose proof (suffix_length _ _ (prefix_rest_fuel_suffix n _ _ _ E1)) as H2.
  destruct (IH r2 ltac:(lia)) as [[[b | e] r3] E2]; rewrite E2; [| eauto].
  destruct (operations_map (kind tok)); eauto.
Qed.

Lemma prefix_rest_fuel_mono (n : nat) :
  forall (r : str) (x : outcome Expression * str) (m : nat),
    prefix_rest_fuel n r = Some x -> (n <= m)%nat ->
    prefix_rest_fuel m r = Some x.
Proof.
  induction n as [| n IH]; intros r x m; [discriminate |].
  intros H Hm; destruct m as [| m]; [lia |].
  cbn [prefix_rest_fuel] in *.
  destruct (scan (skip_blank r)) as [[tok | e] r1]; [| exact H].
  destruct (TokenType_eqb (kind tok) NUM); [exact H |].
  destruct (kind_in (kind tok) operators); [| exact H].
  destruct (prefix_rest_fuel n r1) as [[[a | e] r2] |] eqn:E1;
    [| | discriminate];
    rewrite (IH _ _ m E1 ltac:(lia)); [| exact H].
  destruct (prefix_rest_fuel n r2) as [[[b | e] r3] |] eqn:E2;
    [| | discriminate];
    rewrite (IH _ _ m E2 ltac:(lia)); exact H.
Qed.

Lemma prefix_rest_fuel_enough (n : nat) (r : str) :
  (List.length r < n)%nat -> prefix_rest_fuel n r = prefix_rest r.
Proof.
  intro Hn; unfold prefix_rest.
  destruct (prefix_rest_fuel_total (S (List.length r)) r ltac:(lia)) as [x E].
  rewrite E; apply (prefix_rest_fuel_mono _ _ _ _ E); lia.
Qed.

Lemma prefix_rest_total (r : str) : exists x, prefix_rest r = Some x.
Proof. apply prefix_rest_fuel_total; lia. Qed.

Lemma prefix_rest_suffix (r : str) (o : outcome Expression) (r' : str) :
  prefix_rest r = Some (o, r') -> suffix r' r.
Proof. apply prefix_rest_fuel_suffix. Qed.

(** The equation of the source, on the remaining characters. *)
Lemma prefix_rest_unfold (r : str) :
  prefix_rest r =
  match scan (skip_blank r) with
  | (Raise e, r1) => Some (Raise e, r1)
  | (Return token, r1) =>
      if TokenType_eqb (kind token) NUM then
        match int (text token) with
        | Return v => Some (Return (Num v), r1)
        | Raise e => Some (Raise e, r1)
        end
      else if kind_in (kind token) operators then
        match prefix_rest r1 with
        | None => None
        | Some (Raise e, r2) => Some (Raise e, r2)
        | Some (Return a, r2) =>
            match prefix_rest r2 with
            | None => None
            | Some (Raise e, r3) => Some (Raise e, r3)
            | Some (Return b, r3) =>
                match operations_map (kind token) with
                | Some operation => Some (Return (operation a b), r3)
                | None => Some (Raise KeyError, r3)
                end
            end
        end
      else Some (Raise (UnexpectedToken (kind token)), r1)
  end.
Proof.
  unfold prefix_rest at 1; cbn [prefix_rest_fuel].
  destruct (scan (skip_blank r)) as [[tok | e] r1] eqn:E; [| reflexivity].
  destruct (TokenType_eqb (kind tok) NUM); [reflexivity |].
  destruct (kind_in (kind tok) operators) eqn:Hop; [| reflexivity].
  pose proof (scan_operator_advance r tok r1 E Hop) as H1.
  rewrite (prefix_rest_fuel_enough _ r1 H1).
  destruct (prefix_rest r1) as [[[a | e] r2] |] eqn:E1; try reflexivity.
  pose proof (suffix_length _ _ (prefix_rest_suffix _ _ _ E1)) as H2.
  rewrite (prefix_rest_fuel_enough (List.length r) r2 ltac:(lia)).
  reflexivity.
Qed.

(** ** Well-formed lexers *)

Lemma rest_suffix (self : Lexer) : suffix (rest self) (input_string self).
Proof.
  exists (firstn (Z.to_nat (position self)) (input_string self)).
  unfold rest; symmetry; apply firstn_skipn.
Qed.

Lemma wf_lexer_rest (self : Lexer) :
  wf self -> self = lexer_rest (input_string self) (rest self).
Proof.
  destruct self as [s p l]; unfold wf, lexer_rest, rest, len.
  cbn [input_string position length]; intros [-> [H0 H1]].
  f_equal; rewrite length_skipn; lia.
Qed.

Lemma lexer_rest_wf (s r : str) : suffix r s -> wf (lexer_rest s r).
Proof.
  intros Hs; pose proof (suffix_len r s Hs); pose proof (len_nonneg r).
  unfold wf, lexer_rest; cbn [input_string position length]; lia.
Qed.

Lemma rest_lexer_rest (s r : str) : suffix r s -> rest (lexer_rest s r) = r.
Proof.
  intros [pre ->]; unfold rest, lexer_rest; cbn [input_string position].
  rewrite len_app.
  replace (Z.to_nat (len pre + len r - len r)) with (List.length pre)
    by (unfold len; lia).
  rewrite skipn_app, skipn_all, Nat.sub_diag; reflexivity.
Qed.

Lemma Lexer_init_rest (s : str) : Lexer_init s = lexer_rest s s.
Proof. unfold Lexer_init, lexer_rest; f_equal; lia. Qed.

Lemma compute_prefix_suffix (s r : str) :
  suffix r s -> compute_prefix (lexer_rest s r) = lift_rest s (prefix_rest r).
Proof.
  intro Hs; unfold compute_prefix, prefix_rest.
  rewrite (depth_lexer_rest s r Hs); apply compute_prefix_fuel_rest; exact Hs.
Qed.

Lemma compute_prefix_fuel_enough (n : nat) (self : Lexer) :
  wf self -> (depth self <= n)%nat ->
  compute_prefix_fuel n self = compute_prefix self.
Proof.
  intros Hwf Hn; pose proof (rest_suffix self) as Hs.
  rewrite (wf_lexer_rest self Hwf) in Hn |- *.
  rewrite (depth_lexer_rest _ _ Hs) in Hn.
  rewrite compute_prefix_suffix, compute_prefix_fuel_rest by exact Hs.
  rewrite prefix_rest_fuel_enough by lia; reflexivity.
Qed.

(** ** Characters appended after a complete expression *)

Lemma span_digits_head_false (t : str) :
  head_isdigit t = false -> digit_run t = [] /\ after_run t = t.
Proof.
  destruct t as [| d t]; [split; reflexivity |].
  cbn [head_isdigit]; apply span_digits_cons_false.
Qed.

Lemma span_digits_ext (t u : str) :
  after_run u <> [] \/ head_isdigit t = false ->
  digit_run (u ++ t) = digit_run u /\ after_run (u ++ t) = after_run u ++ t.
Proof.
  induction u as [| a u IH]; intro H.
  - destruct H as [H | H]; [exfalso; apply H; reflexivity |].
    exact (span_digits_head_false t H).
  - cbn [app]; destruct (isdigit a) eqn:D.
    + destruct (span_digits_cons_true a u D) as [E1 E2].
      destruct (span_digits_cons_true a (u ++ t) D) as [-> ->].
      rewrite E1, E2; rewrite E2 in H.
      destruct (IH H) as [-> ->]; split; reflexivity.
    + destruct (span_digits_cons_false a u D) as [-> ->].
      destruct (span_digits_cons_false a (u ++ t) D) as [-> ->].
      split; reflexivity.
Qed.

Lemma scan_skip_blank_ext (t u : str) (tok : Token) (u' : str) :
  scan (skip_blank u) = (Return tok, u') ->
  kind tok <> EOF ->
  u' <> [] \/ head_isdigit t = false ->
  scan (skip_blank (u ++ t)) = (Return tok, u' ++ t).
Proof.
  induction u as [| a u IH]; intros E Hk Ht.
  - cbn [skip_blank scan] in E; injection E as <- _.
    exfalso; apply Hk; reflexivity.
  - cbn [app skip_blank] in *; destruct (is_blank a); [exact (IH E Hk Ht) |].
    cbn [scan] in *; destruct (isdigit a).
    + injection E as <- <-.
      destruct (span_digits_ext t u Ht) as [-> ->]; reflexivity.
    + destruct (dict_get non_numeric_tokens a); [| discriminate].
      injection E as <- <-; reflexivity.
Qed.

Lemma prefix_rest_fuel_nil (n : nat) (e : Expression) (r : str) :
  prefix_rest_fuel n [] <> Some (Return e, r).
Proof. destruct n; discriminate. Qed.

Lemma TokenType_eqb_NUM_not_EOF (k : TokenType) :
  TokenType_eqb k NUM = true -> k <> EOF.
Proof. intros H ->; discriminate. Qed.

Lemma operators_not_EOF (k : TokenType) :
  kind_in k operators = true -> k <> EOF.
Proof. intros H ->; discriminate. Qed.

Lemma prefix_rest_fuel_ext (t : str) (n : nat) :
  forall (u : str) (e : Expression) (u' : str),
    prefix_rest_fuel n u = Some (Return e, u') ->
    u' <> [] \/ head_isdigit t = false ->
    prefix_rest_fuel n (u ++ t) = Some (Return e, u' ++ t).
Proof.
  induction n as [| n IH]; intros u e u'; [discriminate |].
  cbn [prefix_rest_fuel].
  destruct (scan (skip_blank u)) as [[tok | x] u1] eqn:E; [| discriminate].
  destruct (TokenType_eqb (kind tok) NUM) eqn:Hnum.
  - destruct (int (text tok)) as [v |] eqn:Ev; [| discriminate].
    intros H Ht; injection H as <- <-.
    rewrite (scan_skip_blank_ext t u tok u1 E
               (TokenType_eqb_NUM_not_EOF _ Hnum) Ht), Hnum, Ev.
    reflexivity.
  - destruct (kind_in (kind tok) operators) eqn:Hop; [| discriminate].
    destruct (prefix_rest_fuel n u1) as [[[a | x] u2] |] eqn:E1;
      [| discriminate | discriminate].
    destruct (prefix_rest_fuel n u2) as [[[b | x] u3] |] eqn:E2;
      [| discriminate | discriminate].
    destruct (operations_map (kind tok)) as [operation |] eqn:Eo;
      [| discriminate].
    intros H Ht; injection H as <- <-.
    assert (H1 : u1 <> [])
      by (intros ->; exact (prefix_rest_fuel_nil _ _ _ E1)).
    assert (H2 : u2 <> [])
      by (intros ->; exact (prefix_rest_fuel_nil _ _ _ E2)).
    rewrite (scan_skip_blank_ext t u tok u1 E (operators_not_EOF _ Hop)
               (or_introl H1)), Hnum, Hop.
    rewrite (IH u1 a u2 E1 (or_introl H2)), (IH u2 b u3 E2 Ht), Eo.
    reflexivity.
Qed.

Lemma prefix_rest_ext (t u : str) (e : Expression) (u' : str) :
  prefix_rest u = Some (Return e, u') ->
  u' <> [] \/ head_isdigit t = false ->
  prefix_rest (u ++ t) = Some (Return e, u' ++ t).
Proof.
  intros H Ht.
  rewrite <- (prefix_rest_fuel_enough (S (List.length (u ++ t)))) by lia.
  apply prefix_rest_fuel_ext; [| exact Ht].
  apply (prefix_rest_fuel_mono _ _ _ _ H).
  rewrite length_app; lia.
Qed.

(** A blank in front changes nothing. *)
Lemma prefix_rest_blank (c : char) (r : str) :
  is_blank c = true -> prefix_rest (c :: r) = prefix_rest r.
Proof.
  intro Hb; rewrite (prefix_rest_unfold (c :: r)), (prefix_rest_unfold r).
  cbn [skip_blank]; rewrite Hb; reflexivity.
Qed.

(** ** Inserting a blank between two tokens *)

Lemma ins_weaken (c : char) (prev : bool) (u v : str) :
  ins c prev u v -> ins c false u v.
Proof.
  intros H; destruct H; [apply ins_here; reflexivity | apply ins_skip; exact H].
Qed.


Lemma is_blank_not_digit (c : char) : is_blank c = true -> isdigit c = false.
Proof.
  unfold is_blank; intro H; apply orb_true_iff in H.
  destruct H as [H | H]; apply N.eqb_eq in H; subst c; reflexivity.
Qed.





(** ** Scanning one token *)

Lemma wf_getitem (self : Lexer) (c : char) :
  wf self ->
  getitem (input_string self) (position self) = Some c ->
  exists r, rest self = c :: r.
Proof.
  intros [_ [H0 _]]; unfold getitem, rest.
  destruct (0 <=? position self) eqn:E; [| apply Z.leb_gt in E; lia].
  intro H; apply nth_error_split in H; destruct H as [l1 [l2 [-> Hl]]].
  exists l2; rewrite <- Hl, skipn_app, skipn_all, Nat.sub_diag; reflexivity.
Qed.

Lemma getToken_wf (self : Lexer) :
  wf self ->
  getToken self
  = (fst (scan (rest self)),
     lexer_rest (input_string self) (snd (scan (rest self)))).
Proof.
  intro Hwf; rewrite (wf_lexer_rest self Hwf) at 1.
  apply getToken_suffix, rest_suffix.
Qed.

Lemma next_valid_token_wf (self : Lexer) :
  wf self ->
  next_valid_token self
  = Some (fst (scan (skip_blank (rest self))),
          lexer_rest (input_string self) (snd (scan (skip_blank (rest self))))).
Proof.
  intro Hwf; rewrite (wf_lexer_rest self Hwf) at 1.
  apply next_valid_token_suffix, rest_suffix.
Qed.

Lemma compute_prefix_wf (self : Lexer) :
  wf self ->
  compute_prefix self = lift_rest (input_string self) (prefix_rest (rest self)).
Proof.
  intro Hwf; rewrite (wf_lexer_rest self Hwf) at 1.
  apply compute_prefix_suffix, rest_suffix.
Qed.

(** Moving on to a later suffix of the input keeps the lexer well formed
    and does not move the position back. *)
Lemma lexer_rest_later (self : Lexer) (r' : str) :
  wf self -> suffix r' (rest self) ->
  wf (lexer_rest (input_string self) r')
  /\ position self <= position (lexer_rest (input_string self) r').
Proof.
  intros Hwf Hs.
  pose proof (suffix_trans _ _ _ Hs (rest_suffix self)) as Hs'.
  split; [apply lexer_rest_wf; exact Hs' |].
  rewrite (wf_lexer_rest self Hwf) at 1.
  cbn [lexer_rest position]; pose proof (suffix_len _ _ Hs); lia.
Qed.

Lemma not_recognized (c : char) :
  ~ In c recognized -> dict_get non_numeric_tokens c = None.
Proof.
  intro H; unfold dict_get, non_numeric_tokens; cbn [find fst snd].
  repeat match goal with
         | |- context [(?a =? c)%N] =>
             destruct (N.eqb_spec a c) as [<- | _];
             [exfalso; apply H; simpl; auto 10 |]
         end.
  reflexivity.
Qed.

Lemma dict_get_not_NUM (c : char) (k : TokenType) :
  dict_get non_numeric_tokens c = Some k -> k <> NUM.
Proof.
  unfold dict_get, non_numeric_tokens; cbn [find fst snd].
  repeat match goal with
         | |- context [(?a =? c)%N] =>
             destruct (a =? c)%N;
             [intro Hk; injection Hk as <-; discriminate |]
         end.
  discriminate.
Qed.

Lemma getToken_NUM_text (r : str) (tok : Token) :
  fst (scan r) = Return tok -> kind tok = NUM ->
  text tok <> [] /\ forallb isdigit (text tok) = true.
Proof.
  destruct r as [| a r]; cbn [scan fst].
  - intro H; injection H as <-; discriminate.
  - destruct (isdigit a) eqn:D; cbn [fst].
    + intro H; injection H as <-; intros _; cbn [text forallb].
      rewrite D, digit_run_digits; split; [discriminate | reflexivity].
    + destruct (dict_get non_numeric_tokens a) as [k |] eqn:E; cbn [fst];
        [| discriminate].
      intro H; injection H as <-; cbn [kind]; intro Hk.
      exfalso; exact (dict_get_not_NUM a k E Hk).
Qed.

(** C5: when the character at the position is a digit, [getToken] returns
    a NUM token whose text is the longest run of digit characters that
    starts at the position, and moves the position past that run; a '-' is
    scanned as a SUB token of its own, and the text of a NUM token never
    contains one. *)
Theorem getToken_number_maximal_munch :
  (forall (self : Lexer) (c : char),
     wf self ->
     getitem (input_string self) (position self) = Some c ->
     isdigit c = true ->
     getToken self
     = (Return (mkToken (digit_run (rest self)) NUM),
        set_position self (position self + len (digit_run (rest self))))
     /\ (exists ds, digit_run (rest self) = c :: ds)
     /\ forallb isdigit (digit_run (rest self)) = true
     /\ rest self = digit_run (rest self) ++ after_run (rest self)
     /\ head_isdigit (after_run (rest self)) = false)
  /\ (forall self : Lexer,
        wf self ->
        getitem (input_string self) (position self) = Some (ord "-") ->
        getToken self
        = (Return (mkToken [ord "-"] SUB),
           set_position self (position self + 1)))
  /\ (forall (self : Lexer) (tok : Token),
        wf self ->
        fst (getToken self) = Return tok -> kind tok = NUM ->
        forallb isdigit (text tok) = true /\ ~ In (ord "-") (text tok)).
Proof.
  split; [| split].
  - intros self c Hwf Hc D.
    destruct (wf_getitem self c Hwf Hc) as [r Hr].
    rewrite (getToken_wf self Hwf), Hr.
    destruct (span_digits_cons_true c r D) as [E1 E2].
    cbn [scan fst snd]; rewrite D, E1, E2; cbn [fst snd].
    split; [| split; [eauto | split; [| split]]].
    + f_equal.
      pose proof (wf_lexer_rest self Hwf) as Hself; rewrite Hr in Hself.
      remember (input_string self) as s eqn:Hs; clear Hs.
      subst self.
      unfold set_position, lexer_rest; cbn [input_string position length].
      f_equal.
      rewrite (span_digits_app r) at 2.
      rewrite !len_cons, len_app; lia.
    + cbn [forallb]; rewrite D, digit_run_digits; reflexivity.
    + cbn [app]; f_equal; apply span_digits_app.
    + apply after_run_head.
  - intros self Hwf Hc.
    destruct (wf_getitem self _ Hwf Hc) as [r Hr].
    rewrite (getToken_wf self Hwf), Hr.
    change (scan (ord "-" :: r)) with (Return (mkToken [ord "-"] SUB), r).
    cbn [fst snd]; f_equal.
    pose proof (wf_lexer_rest self Hwf) as Hself; rewrite Hr in Hself.
    remember (input_string self) as s eqn:Hs; clear Hs.
    subst self; symmetry; apply lexer_rest_advance.
  - intros self tok Hwf; rewrite (getToken_wf self Hwf); cbn [fst].
    intros H Hk; destruct (getToken_NUM_text _ _ H Hk) as [_ Hd].
    split; [exact Hd |].
    intro Hin; rewrite forallb_forall in Hd; specialize (Hd _ Hin).
    discriminate.
Qed.

Lemma getToken_number_maximal_munch_witness :
  getToken (mkLexer (pystr "+ 123-4") 2 7)
  = (Return (mkToken (pystr "123") NUM), mkLexer (pystr "+ 123-4") 5 7)
  /\ getToken (mkLexer (pystr "+ 123-4") 5 7)
     = (Return (mkToken (pystr "-") SUB), mkLexer (pystr "+ 123-4") 6 7).
Proof.
  assert (Hwf : forall p, 0 <= p <= 7 -> wf (mkLexer (pystr "+ 123-4") p 7)).
  { intros p Hp; split; [reflexivity | exact Hp]. }
  destruct getToken_number_maximal_munch as [H1 [H2 _]].
  split.
  - exact (proj1 (H1 (mkLexer (pystr "+ 123-4") 2 7) (ord "1")
                     (Hwf 2 ltac:(lia)) eq_refl eq_refl)).
  - exact (H2 (mkLexer (pystr "+ 123-4") 5 7) (Hwf 5 ltac:(lia)) eq_refl).
Defined.

(** ** The position of the lexer *)

Lemma Lexer_init_wf (s : str) : wf (Lexer_init s).
Proof. rewrite Lexer_init_rest; apply lexer_rest_wf, suffix_refl. Qed.

(** C6: a lexer starts with [0 <= position <= length] and every operation
    keeps it so; no operation moves the position back or changes the input;
    once [position = length], every further scan returns the EOF token with
    empty text and leaves the lexer as it is. *)
Theorem lexer_position_invariant :
  (forall s : str, wf (Lexer_init s))
  /\ (forall self : Lexer,
        wf self ->
        wf (snd (getToken self))
        /\ input_string (snd (getToken self)) = input_string self
        /\ length (snd (getToken self)) = length self
        /\ position self <= position (snd (getToken self)))
  /\ (forall (self self' : Lexer) (o : outcome Token),
        wf self -> next_valid_token self = Some (o, self') ->
        wf self' /\ position self <= position self')
  /\ (forall (self self' : Lexer) (o : outcome Expression),
        wf self -> compute_prefix self = Some (o, self') ->
        wf self' /\ position self <= position self')
  /\ (forall self : Lexer,
        position self = length self ->
        forall n : nat,
          scans n self = self
          /\ getToken (scans n self) = (Return (mkToken [] EOF), self)).
Proof.
  split; [| split; [| split; [| split]]].
  - exact Lexer_init_wf.
  - intros self Hwf; rewrite (getToken_wf self Hwf); cbn [snd].
    destruct (lexer_rest_later self _ Hwf (scan_suffix (rest self))) as [H1 H2].
    split; [exact H1 | split; [reflexivity | split; [| exact H2]]].
    destruct Hwf as [Hl _]; rewrite Hl; reflexivity.
  - intros self self' o Hwf; rewrite (next_valid_token_wf self Hwf).
    intro H; injection H as _ <-.
    apply lexer_rest_later; [exact Hwf | apply scan_skip_blank_suffix].
  - intros self self' o Hwf; rewrite (compute_prefix_wf self Hwf).
    destruct (prefix_rest (rest self)) as [[o' r'] |] eqn:E; [| discriminate].
    cbn [lift_rest]; intro H; injection H as _ <-.
    apply lexer_rest_later; [exact Hwf | exact (prefix_rest_suffix _ _ _ E)].
  - intros self Hp.
    assert (H : getToken self = (Return (mkToken [] EOF), self)).
    { unfold getToken; rewrite Hp.
      destruct (length self >=? length self) eqn:E; [reflexivity |].
      rewrite Z.geb_leb in E; apply Z.leb_gt in E; lia. }
    assert (Hn : forall n, scans n self = self).
    { induction n as [| n IH]; [reflexivity |].
      cbn [scans]; rewrite IH, H; reflexivity. }
    intro n; rewrite Hn; split; [reflexivity | exact H].
Qed.

Lemma lexer_position_invariant_witness :
  wf (Lexer_init (pystr "12 3"))
  /\ position (Lexer_init (pystr "12 3"))
     <= position (snd (getToken (Lexer_init (pystr "12 3"))))
  /\ getToken (scans 5 (mkLexer (pystr "12 3") 4 4))
     = (Return (mkToken [] EOF), mkLexer (pystr "12 3") 4 4).
Proof.
  destruct lexer_position_invariant as [H0 [H1 [_ [_ H4]]]].
  split; [apply H0 | split].
  - apply (H1 (Lexer_init (pystr "12 3")) (H0 (pystr "12 3"))).
  - apply (H4 (mkLexer (pystr "12 3") 4 4) eq_refl 5%nat).
Defined.

(** ** Unrecognized characters *)

Lemma getToken_unrecognized (self : Lexer) (c : char) :
  position self < length self ->
  getitem (input_string self) (position self) = Some c ->
  isdigit c = false ->
  dict_get non_numeric_tokens c = None ->
  getToken self
  = (Raise (UnexpectedCharacter c), set_position self (position self + 1)).
Proof.
  intros Hp Hc D Hd; unfold getToken.
  destruct (position self >=? length self) eqn:E;
    [apply Z.geb_le in E; lia |].
  rewrite Hc; cbv zeta; rewrite D, Hd; reflexivity.
Qed.

(** C7: a character at the position that is neither a digit nor one of
    '+', '-', '*', '/', '(', ')', space and newline makes [getToken] raise
    the ValueError that carries the character; the error is fatal for the
    callers: [next_valid_token] and [compute_prefix] started at that
    position end with the same error and produce no token or tree. *)
Theorem getToken_unexpected_character :
  forall (self : Lexer) (c : char),
    position self < length self ->
    getitem (input_string self) (position self) = Some c ->
    isdigit c = false ->
    ~ In c recognized ->
    fst (getToken self) = Raise (UnexpectedCharacter c)
    /\ result_of (next_valid_token self) = Some (Raise (UnexpectedCharacter c))
    /\ result_of (compute_prefix self) = Some (Raise (UnexpectedCharacter c)).
Proof.
  intros self c Hp Hc D Hn.
  pose proof (getToken_unrecognized self c Hp Hc D (not_recognized c Hn)) as H.
  assert (Hv : next_valid_token self
               = Some (Raise (UnexpectedCharacter c),
                       set_position self (position self + 1))).
  { unfold next_valid_token, depth; cbn [next_valid_token_fuel].
    rewrite H; reflexivity. }
  split; [rewrite H; reflexivity | split].
  - rewrite Hv; reflexivity.
  - unfold compute_prefix, depth; cbn [compute_prefix_fuel].
    rewrite Hv; reflexivity.
Qed.

Lemma getToken_unexpected_character_witness :
  fst (getToken (Lexer_init (pystr "@")))
  = Raise (UnexpectedCharacter (ord "@"))
  /\ result_of (compute_prefix (Lexer_init (pystr "@")))
     = Some (Raise (ValueError (pystr "Unexpected character: @"))).
Proof.
  assert (Hn : ~ In (ord "@") recognized).
  { intro H; cbn in H.
    repeat (destruct H as [H | H]; [discriminate H |]); exact H. }
  pose proof (getToken_unexpected_character (Lexer_init (pystr "@")) (ord "@")
                ltac:(cbn; lia) eq_refl eq_refl Hn) as [H1 [_ H3]].
  split; [exact H1 | exact H3].
Defined.

(** C9: when [getToken] raises for an unrecognized character, the position
    has already been moved one past that character: the lexer after the
    failed call differs from the lexer before it. *)
Theorem getToken_error_advances_position :
  forall (self : Lexer) (c : char),
    position self < length self ->
    getitem (input_string self) (position self) = Some c ->
    isdigit c = false ->
    dict_get non_numeric_tokens c = None ->
    fst (getToken self) = Raise (UnexpectedCharacter c)
    /\ position (snd (getToken self)) = position self + 1
    /\ snd (getToken self) <> self.
Proof.
  intros self c Hp Hc D Hd.
  rewrite (getToken_unrecognized self c Hp Hc D Hd); cbn [fst snd].
  split; [reflexivity | split; [reflexivity |]].
  intro H; apply (f_equal position) in H; cbn [set_position position] in H.
  lia.
Qed.

Lemma getToken_error_advances_position_witness :
  fst (getToken (Lexer_init (pystr "@1")))
  = Raise (UnexpectedCharacter (ord "@"))
  /\ position (snd (getToken (Lexer_init (pystr "@1")))) = 1
  /\ snd (getToken (Lexer_init (pystr "@1"))) <> Lexer_init (pystr "@1").
Proof.
  exact (getToken_error_advances_position (Lexer_init (pystr "@1")) (ord "@")
           ltac:(cbn; lia) eq_refl eq_refl eq_refl).
Defined.

(** ** Tokens that start no expression *)

Lemma compute_prefix_other_token (self self1 : Lexer) (tok : Token) :
  next_valid_token self = Some (Return tok, self1) ->
  kind tok <> NUM -> kind_in (kind tok) operators = false ->
  compute_prefix self = Some (Raise (UnexpectedToken (kind tok)), self1).
Proof.
  intros H Hn Hop; unfold compute_prefix, depth; cbn [compute_prefix_fuel].
  rewrite H, Hop.
  destruct (TokenType_eqb (kind tok) NUM) eqn:E; [| reflexivity].
  apply TokenType_eqb_eq in E; contradiction.
Qed.

(** C4: when the token that [compute_prefix] fetches is neither a NUM nor
    an operator, it raises the ValueError that carries the kind of the
    token; such a token is an EOF, LPR or RPR token; the input "+" alone
    ends in the error for EOF. *)
Theorem compute_prefix_unexpected_token :
  (forall (self self1 : Lexer) (tok : Token),
     next_valid_token self = Some (Return tok, self1) ->
     kind tok <> NUM -> kind_in (kind tok) operators = false ->
     compute_prefix self = Some (Raise (UnexpectedToken (kind tok)), self1))
  /\ (forall (self self1 : Lexer) (tok : Token),
        wf self ->
        next_valid_token self = Some (Return tok, self1) ->
        kind tok <> NUM -> kind_in (kind tok) operators = false ->
        In (kind tok) [EOF; LPR; RPR])
  /\ compute_prefix (Lexer_init (pystr "+"))
     = Some (Raise (UnexpectedToken EOF), mkLexer (pystr "+") 1 1)
  /\ compute_prefix (Lexer_init [])
     = Some (Raise (UnexpectedToken EOF), mkLexer [] 0 0)
  /\ compute_prefix (Lexer_init (pystr "("))
     = Some (Raise (UnexpectedToken LPR), mkLexer (pystr "(") 1 1)
  /\ compute_prefix (Lexer_init (pystr "+ 1 )"))
     = Some (Raise (UnexpectedToken RPR), mkLexer (pystr "+ 1 )") 5 5).
Proof.
  split; [exact compute_prefix_other_token | split].
  - intros self self1 tok Hwf; rewrite (next_valid_token_wf self Hwf).
    intros H Hn Hop; injection H as H _.
    destruct (scan (skip_blank (rest self))) as [o r'] eqn:E.
    cbn [fst] in H; subst o.
    pose proof (scan_skip_blank_kind _ _ _ E) as Hb.
    destruct (kind tok); cbn [In]; try discriminate; try contradiction; auto.
  - repeat split; vm_compute; reflexivity.
Qed.

Lemma compute_prefix_unexpected_token_witness :
  compute_prefix (Lexer_init (pystr " )"))
  = Some (Raise (ValueError (pystr "Unexpected token type: TokenType.RPR")),
          mkLexer (pystr " )") 2 2).
Proof.
  refine (proj1 compute_prefix_unexpected_token
            (Lexer_init (pystr " )")) (mkLexer (pystr " )") 2 2)
            (mkToken (pystr ")") RPR) eq_refl _ eq_refl).
  discriminate.
Defined.

(** ** Termination *)

(** C10: on every input [compute_prefix] ends, with a tree or with an
    error: the bound [depth] on the depth of the calls is always enough
    and a larger one changes nothing.  The reasons are that a token other
    than EOF moves the position forward, within the length of the input,
    and that an EOF token leads to the error without a further call. *)
Theorem compute_prefix_terminates :
  (forall s : str,
     exists o self', compute_prefix (Lexer_init s) = Some (o, self'))
  /\ (forall self : Lexer,
        wf self ->
        (exists o self', compute_prefix self = Some (o, self'))
        /\ (exists o self', next_valid_token self = Some (o, self'))
        /\ (forall n : nat,
              (depth self <= n)%nat ->
              compute_prefix_fuel n self = compute_prefix self))
  /\ (forall (self self' : Lexer) (tok : Token),
        wf self ->
        getToken self = (Return tok, self') -> kind tok <> EOF ->
        position self < position self' <= length self')
  /\ (forall (self self1 : Lexer) (tok : Token),
        next_valid_token self = Some (Return tok, self1) ->
        kind tok = EOF ->
        compute_prefix self = Some (Raise (UnexpectedToken EOF), self1)).
Proof.
  assert (Hall : forall self : Lexer,
             wf self -> exists o self', compute_prefix self = Some (o, self')).
  { intros self Hwf; rewrite (compute_prefix_wf self Hwf).
    destruct (prefix_rest_total (rest self)) as [[o r'] ->].
    cbn [lift_rest]; eauto. }
  split; [| split; [| split]].
  - intro s; apply Hall, Lexer_init_wf.
  - intros self Hwf; split; [exact (Hall self Hwf) | split].
    + rewrite (next_valid_token_wf self Hwf); eauto.
    + intros n Hn; exact (compute_prefix_fuel_enough n self Hwf Hn).
  - intros self self' tok Hwf; rewrite (getToken_wf self Hwf).
    destruct (scan (rest self)) as [o r1] eqn:E; cbn [fst snd].
    intros H Hk; injection H as -> <-.
    pose proof (scan_advance _ _ _ E Hk) as Ha.
    pose proof (wf_lexer_rest self Hwf) as Hself.
    apply (f_equal position) in Hself.
    cbn [lexer_rest position length] in *.
    unfold len in *; lia.
  - intros self self1 tok H Hk.
    rewrite <- Hk; apply compute_prefix_other_token;
      [exact H | rewrite Hk; discriminate | rewrite Hk; reflexivity].
Qed.

Lemma compute_prefix_terminates_witness :
  (exists o self', compute_prefix (mkLexer (pystr "* 2 + 3") 1 7)
                   = Some (o, self'))
  /\ compute_prefix_fuel 50 (mkLexer (pystr "* 2 + 3") 1 7)
     = Some (Return (Num 2), mkLexer (pystr "* 2 + 3") 3 7).
Proof.
  assert (Hwf : wf (mkLexer (pystr "* 2 + 3") 1 7)).
  { split; [reflexivity | cbn; lia]. }
  destruct (proj1 (proj2 compute_prefix_terminates)
              (mkLexer (pystr "* 2 + 3") 1 7) Hwf) as [H1 [_ H3]].
  split; [exact H1 |].
  rewrite (H3 50%nat ltac:(unfold depth; cbn [length position]; lia)).
  reflexivity.
Defined.

(** ** Parsing from the start of an input *)

Lemma compute_prefix_init (s : str) :
  compute_prefix (Lexer_init s) = lift_rest s (prefix_rest s).
Proof.
  rewrite Lexer_init_rest; apply compute_prefix_suffix, suffix_refl.
Qed.

Lemma compute_prefix_init_inv (s : str) (o : outcome Expression) (l : Lexer) :
  compute_prefix (Lexer_init s) = Some (o, l) ->
  exists r', prefix_rest s = Some (o, r') /\ l = lexer_rest s r'
             /\ suffix r' s.
Proof.
  rewrite compute_prefix_init.
  destruct (prefix_rest s) as [[o' r'] |] eqn:E; [| discriminate].
  cbn [lift_rest]; intro H; injection H as -> <-.
  exists r'; split; [reflexivity | split; [reflexivity |]].
  exact (prefix_rest_suffix _ _ _ E).
Qed.

Lemma len_zero (r : str) : len r <= 0 -> r = [].
Proof.
  destruct r; [reflexivity |]; rewrite len_cons.
  pose proof (len_nonneg r); lia.
Qed.

(** C3: [compute_prefix] does not check that the input is used up.  When
    an input parses to a tree, the same input followed by any further
    characters parses to the same tree and the lexer stops at the same
    position, the further characters being left unread (they must not
    continue the last number: either the first parse stopped before the
    end of its input or they do not begin with a digit). *)
Theorem compute_prefix_ignores_trailing_tokens :
  (forall (s t : str) (e : Expression) (self' : Lexer),
     compute_prefix (Lexer_init s) = Some (Return e, self') ->
     position self' < length self' \/ head_isdigit t = false ->
     compute_prefix (Lexer_init (s ++ t))
     = Some (Return e, mkLexer (s ++ t) (position self') (len (s ++ t))))
  /\ compute_prefix (Lexer_init (pystr "1 2"))
     = Some (Return (Num 1), mkLexer (pystr "1 2") 1 3)
  /\ compute_prefix (Lexer_init (pystr "+ 1 2 ) @"))
     = Some (Return (Add (Num 1) (Num 2)), mkLexer (pystr "+ 1 2 ) @") 5 9).
Proof.
  split; [| split; vm_compute; reflexivity].
  intros s t e self' H Ht.
  destruct (compute_prefix_init_inv s _ _ H) as [r' [E [-> Hs]]].
  assert (Ht' : r' <> [] \/ head_isdigit t = false).
  { destruct Ht as [Hp | Hd]; [left | right; exact Hd].
    intros ->; cbn [lexer_rest position length] in Hp; rewrite len_nil in Hp.
    lia. }
  rewrite compute_prefix_init, (prefix_rest_ext t s e r' E Ht').
  cbn [lift_rest]; unfold lexer_rest; cbn [position].
  do 2 f_equal. f_equal. rewrite !len_app; lia.
Qed.

Lemma compute_prefix_ignores_trailing_tokens_witness :
  compute_prefix (Lexer_init (pystr "* 2 3" ++ pystr " 4 5"))
  = Some (Return (Mul (Num 2) (Num 3)),
          mkLexer (pystr "* 2 3" ++ pystr " 4 5") 5 9).
Proof.
  exact (proj1 compute_prefix_ignores_trailing_tokens
           (pystr "* 2 3") (pystr " 4 5") (Mul (Num 2) (Num 3))
           (mkLexer (pystr "* 2 3") 5 5) eq_refl (or_intror eq_refl)).
Defined.

(** ** Blanks between tokens *)

Lemma skip_blank_app (ws r : str) :
  forallb is_blank ws = true ->
  match r with [] => True | c :: _ => is_blank c = false end ->
  skip_blank (ws ++ r) = r.
Proof.
  intros Hws Hr; induction ws as [| a ws IH]; cbn [app].
  - destruct r as [| c r]; [reflexivity |]; cbn [skip_blank]; rewrite Hr.
    reflexivity.
  - cbn [forallb] in Hws; apply andb_true_iff in Hws; destruct Hws as [Ha Hw].
    cbn [skip_blank]; rewrite Ha; exact (IH Hw).
Qed.


(** ** Operators *)

Lemma operators_operations_map (k : TokenType) :
  kind_in k operators = true ->
  exists operation, operations_map k = Some operation.
Proof. destruct k; try discriminate; intros _; cbn; eauto. Qed.

Lemma scan_operator_char (opc : char) (k : TokenType) (r : str) :
  In (opc, k) [(ord "+", ADD); (ord "-", SUB); (ord "*", MUL); (ord "/", DIV)] ->
  scan (skip_blank (opc :: r)) = (Return (mkToken [opc] k), r).
Proof.
  intro H; cbn [In] in H.
  repeat (destruct H as [H | H]; [injection H as <- <-; reflexivity |]).
  contradiction.
Qed.

(** C1: when the next token that is not a blank is an operator,
    [compute_prefix] parses two expressions one after the other, the
    second from where the first one stopped, and returns the node of the
    operator (Add for ADD, Sub for SUB, Mul for MUL, Div for DIV) with the
    first tree on the left and the second on the right; an error of either
    call is the error of the whole.  In particular the text of an operator,
    a text that is exactly one expression and a text that begins with an
    expression, separated by spaces, parse to the node of the two trees in
    that order. *)
Theorem compute_prefix_binary :
  (forall (self self1 : Lexer) (tok : Token),
     wf self ->
     next_valid_token self = Some (Return tok, self1) ->
     kind_in (kind tok) operators = true ->
     exists operation,
       operations_map (kind tok) = Some operation
       /\ compute_prefix self
          = match compute_prefix self1 with
            | Some (Return a, self2) =>
                match compute_prefix self2 with
                | Some (Return b, self3) =>
                    Some (Return (operation a b), self3)
                | Some (Raise e, self3) => Some (Raise e, self3)
                | None => None
                end
            | Some (Raise e, self2) => Some (Raise e, self2)
            | None => None
            end)
  /\ (operations_map ADD = Some Add /\ operations_map SUB = Some Sub
      /\ operations_map MUL = Some Mul /\ operations_map DIV = Some Div)
  /\ (forall (opc : char) (k : TokenType) (operation : _)
             (s1 s2 : str) (e1 e2 : Expression) (l1 l2 : Lexer),
        In (opc, k)
          [(ord "+", ADD); (ord "-", SUB); (ord "*", MUL); (ord "/", DIV)] ->
        operations_map k = Some operation ->
        compute_prefix (Lexer_init s1) = Some (Return e1, l1) ->
        position l1 = length l1 ->
        compute_prefix (Lexer_init s2) = Some (Return e2, l2) ->
        compute_prefix (Lexer_init (opc :: ord " " :: s1 ++ ord " " :: s2))
        = Some (Return (operation e1 e2),
                mkLexer (opc :: ord " " :: s1 ++ ord " " :: s2)
                  (len s1 + 3 + position l2)
                  (len (opc :: ord " " :: s1 ++ ord " " :: s2)))).
Proof.
  split; [| split; [repeat split |]].
  - intros self self1 tok Hwf Hv Hop.
    destruct (operators_operations_map _ Hop) as [operation Ho].
    exists operation; split; [exact Ho |].
    rewrite (next_valid_token_wf self Hwf) in Hv; injection Hv as Ht <-.
    pose proof (suffix_trans _ _ _ (scan_skip_blank_suffix (rest self))
                  (rest_suffix self)) as Hs1.
    rewrite (compute_prefix_wf self Hwf), prefix_rest_unfold.
    destruct (scan (skip_blank (rest self))) as [o r1]; cbn [fst snd] in *.
    subst o; rewrite Hop, Ho.
    destruct (TokenType_eqb (kind tok) NUM) eqn:En.
    { apply TokenType_eqb_eq in En; rewrite En in Hop; discriminate. }
    rewrite (compute_prefix_suffix _ r1 Hs1).
    destruct (prefix_rest r1) as [[[a | e] r2] |] eqn:E1; cbn [lift_rest];
      [| reflexivity | reflexivity].
    pose proof (suffix_trans _ _ _ (prefix_rest_suffix _ _ _ E1) Hs1) as Hs2.
    rewrite (compute_prefix_suffix _ r2 Hs2).
    destruct (prefix_rest r2) as [[[b | e] r3] |]; reflexivity.
  - intros opc k operation s1 s2 e1 e2 l1 l2 Hin Ho H1 Hp H2.
    destruct (compute_prefix_init_inv s1 _ _ H1) as [r1 [E1 [-> _]]].
    destruct (compute_prefix_init_inv s2 _ _ H2) as [r2 [E2 [-> _]]].
    assert (Hr1 : r1 = []).
    { apply len_zero; cbn [lexer_rest position length] in Hp; lia. }
    subst r1.
    assert (Hk : TokenType_eqb k NUM = false /\ kind_in k operators = true).
    { cbn [In] in Hin.
      repeat (destruct Hin as [Hin | Hin];
              [injection Hin as _ <-; split; reflexivity |]).
      contradiction. }
    destruct Hk as [Hk1 Hk2].
    rewrite compute_prefix_init, prefix_rest_unfold.
    rewrite (scan_operator_char opc k _ Hin); cbn [kind]; rewrite Hk1, Hk2, Ho.
    rewrite (prefix_rest_blank (ord " ")) by reflexivity.
    rewrite (prefix_rest_ext (ord " " :: s2) s1 e1 [] E1 (or_intror eq_refl)).
    cbn [app]; rewrite (prefix_rest_blank (ord " ")) by reflexivity.
    rewrite E2; cbn [lift_rest]; unfold lexer_rest; cbn [position].
    do 3 f_equal.
    rewrite !len_cons, len_app, len_cons; lia.
Qed.

Lemma compute_prefix_binary_witness :
  (exists operation,
     operations_map SUB = Some operation
     /\ compute_prefix (mkLexer (pystr "1 - 10 5") 1 8)
        = Some (Return (operation (Num 10) (Num 5)),
                mkLexer (pystr "1 - 10 5") 8 8))
  /\ compute_prefix
       (Lexer_init (ord "/" :: ord " " :: pystr "+ 3 4" ++ ord " " :: pystr "2 9"))
     = Some (Return (Div (Add (Num 3) (Num 4)) (Num 2)),
             mkLexer (pystr "/ + 3 4 2 9") 9 11).
Proof.
  destruct compute_prefix_binary as [H1 [_ H3]].
  split.
  - assert (Hwf : wf (mkLexer (pystr "1 - 10 5") 1 8)).
    { split; [reflexivity | cbn; lia]. }
    destruct (H1 (mkLexer (pystr "1 - 10 5") 1 8)
                (mkLexer (pystr "1 - 10 5") 3 8)
                (mkToken (pystr "-") SUB) Hwf eq_refl eq_refl)
      as [operation [Ho Hc]].
    exists operation; split; [exact Ho | exact Hc].
  - exact (H3 (ord "/") DIV Div (pystr "+ 3 4") (pystr "2 9")
              (Add (Num 3) (Num 4)) (Num 2)
              (mkLexer (pystr "+ 3 4") 5 5) (mkLexer (pystr "2 9") 1 3)
              (or_intror (or_intror (or_intror (or_introl eq_refl))))
              eq_refl eq_refl eq_refl eq_refl).
Defined.

(** ** The recursion limit *)

Lemma getToken_frames_pos (frames : nat) (self : Lexer) :
  (1 <= frames)%nat -> getToken_frames frames self = getToken self.
Proof. destruct frames; [lia | reflexivity]. Qed.






Lemma next_valid_token_fuel_mono (n : nat) :
  forall (self : Lexer) (x : outcome Token * Lexer) (m : nat),
    next_valid_token_fuel n self = Some x -> (n <= m)%nat ->
    next_valid_token_fuel m self = Some x.
Proof.
  induction n as [| n IH]; intros self x m; [discriminate |].
  intros H Hm; destruct m as [| m]; [lia |].
  cbn [next_valid_token_fuel] in *.
  destruct (getToken self) as [[tok | e] l]; [| exact H].
  destruct (kind_in (kind tok) [WSP; NLN]); [| exact H].
  apply (IH _ _ m H); lia.
Qed.

Lemma next_valid_token_frames_fuel (frames : nat) :
  forall (self self' : Lexer) (o : outcome Token),
    next_valid_token_frames frames self = (o, self') ->
    o <> Raise RecursionError ->
    next_valid_token_fuel frames self = Some (o, self').
Proof.
  induction frames as [| frames IH]; intros self self' o.
  - cbn; intro H; injection H as <- _; intro Ho; exfalso; apply Ho.
    reflexivity.
  - cbn [next_valid_token_frames next_valid_token_fuel].
    destruct (Nat.eq_dec frames 0) as [-> | Hf].
    + intro H; injection H as <- _; intro Ho; exfalso; apply Ho; reflexivity.
    + rewrite getToken_frames_pos by lia.
      destruct (getToken self) as [[tok | e] l];
        [| intro H; injection H as <- <-; reflexivity].
      destruct (kind_in (kind tok) [WSP; NLN]);
        [apply IH | intro H; injection H as <- <-; reflexivity].
Qed.

Lemma next_valid_token_keeps_wf (self self' : Lexer) (o : outcome Token) :
  wf self -> next_valid_token self = Some (o, self') -> wf self'.
Proof.
  intro Hwf; rewrite (next_valid_token_wf self Hwf).
  intro H; injection H as _ <-.
  apply lexer_rest_later; [exact Hwf | apply scan_skip_blank_suffix].
Qed.

Lemma compute_prefix_keeps_wf (self self' : Lexer) (o : outcome Expression) :
  wf self -> compute_prefix self = Some (o, self') -> wf self'.
Proof.
  intro Hwf; rewrite (compute_prefix_wf self Hwf).
  destruct (prefix_rest (rest self)) as [[o' r'] |] eqn:E; [| discriminate].
  cbn [lift_rest]; intro H; injection H as _ <-.
  apply lexer_rest_later; [exact Hwf | exact (prefix_rest_suffix _ _ _ E)].
Qed.

(** A run that does not reach the recursion limit has the result of the
    run without limit. *)
Lemma next_valid_token_frames_ideal (self self' : Lexer) (frames : nat)
  (o : outcome Token) :
  wf self ->
  next_valid_token_frames frames self = (o, self') ->
  o <> Raise RecursionError ->
  next_valid_token self = Some (o, self').
Proof.
  intros Hwf H Ho.
  pose proof (next_valid_token_frames_fuel _ _ _ _ H Ho) as Hf.
  pose proof (next_valid_token_wf self Hwf) as Hv.
  unfold next_valid_token in *.
  pose proof (next_valid_token_fuel_mono _ _ _ (frames + depth self) Hf
                ltac:(lia)) as H1.
  pose proof (next_valid_token_fuel_mono _ _ _ (frames + depth self) Hv
                ltac:(lia)) as H2.
  rewrite H1 in H2; rewrite Hv; exact (eq_sym H2).
Qed.

Lemma compute_prefix_fuel_mono (n : nat) :
  forall (self : Lexer) (x : outcome Expression * Lexer) (m : nat),
    compute_prefix_fuel n self = Some x -> (n <= m)%nat ->
    compute_prefix_fuel m self = Some x.
Proof.
  induction n as [| n IH]; intros self x m; [discriminate |].
  intros H Hm; destruct m as [| m]; [lia |].
  cbn [compute_prefix_fuel] in *.
  destruct (next_valid_token self) as [[[tok | e] l1] |]; [| exact H | exact H].
  destruct (TokenType_eqb (kind tok) NUM); [exact H |].
  destruct (kind_in (kind tok) operators); [| exact H].
  destruct (compute_prefix_fuel n l1) as [[[a | e] l2] |] eqn:E1;
    [| | discriminate];
    rewrite (IH _ _ m E1 ltac:(lia)); [| exact H].
  destruct (compute_prefix_fuel n l2) as [[[b | e] l3] |] eqn:E2;
    [| | discriminate];
    rewrite (IH _ _ m E2 ltac:(lia)); exact H.
Qed.

Lemma compute_prefix_frames_fuel (frames : nat) :
  forall (self self' : Lexer) (o : outcome Expression),
    wf self ->
    compute_prefix_frames frames self = (o, self') ->
    o <> Raise RecursionError ->
    compute_prefix_fuel frames self = Some (o, self')
    /\ wf self'.
Proof.
  induction frames as [| frames IH]; intros self self' o Hwf.
  - cbn; intro H; injection H as <- _; intro Ho; exfalso; apply Ho.
    reflexivity.
  - cbn [compute_prefix_frames compute_prefix_fuel].
    destruct (next_valid_token_frames frames self) as [[tok | e] l1] eqn:Ev.
    + assert (Hv : next_valid_token self = Some (Return tok, l1))
        by (apply (next_valid_token_frames_ideal _ _ _ _ Hwf Ev); discriminate).
      pose proof (next_valid_token_keeps_wf _ _ _ Hwf Hv) as Hwf1.
      rewrite Hv.
      destruct (TokenType_eqb (kind tok) NUM).
      { destruct (int (text tok)); intro H; injection H as <- <-;
          intros _; (split; [reflexivity | exact Hwf1]). }
      destruct (kind_in (kind tok) operators);
        [| intro H; injection H as <- <-; intros _;
           split; [reflexivity | exact Hwf1]].
      destruct (compute_prefix_frames frames l1) as [[a | e] l2] eqn:E1.
      * destruct (IH _ _ _ Hwf1 E1 ltac:(discriminate)) as [-> Hwf2].
        destruct (compute_prefix_frames frames l2) as [[b | e] l3] eqn:E2.
        -- destruct (IH _ _ _ Hwf2 E2 ltac:(discriminate)) as [-> Hwf3].
           destruct (operations_map (kind tok)); intro H;
             injection H as <- <-; intros _;
             (split; [reflexivity | exact Hwf3]).
        -- intro H; injection H as <- <-; intro Ho.
           destruct (IH _ _ _ Hwf2 E2 Ho) as [-> Hwf3].
           split; [reflexivity | exact Hwf3].
      * intro H; injection H as <- <-; intro Ho.
        destruct (IH _ _ _ Hwf1 E1 Ho) as [-> Hwf2].
        split; [reflexivity | exact Hwf2].
    + intro H; injection H as <- <-; intro Ho.
      assert (Ho' : @Raise Token e <> Raise RecursionError).
      { intro He; apply Ho; injection He as ->; reflexivity. }
      pose proof (next_valid_token_frames_ideal _ _ _ _ Hwf Ev Ho') as Hv.
      rewrite Hv; split; [reflexivity |].
      exact (next_valid_token_keeps_wf _ _ _ Hwf Hv).
Qed.

Lemma compute_prefix_frames_ideal (self self' : Lexer) (frames : nat)
  (o : outcome Expression) :
  wf self ->
  compute_prefix_frames frames self = (o, self') ->
  o <> Raise RecursionError ->
  compute_prefix self = Some (o, self').
Proof.
  intros Hwf H Ho.
  destruct (compute_prefix_frames_fuel _ _ _ _ Hwf H Ho) as [Hf _].
  rewrite <- (compute_prefix_fuel_enough (frames + depth self) self Hwf)
    by lia.
  apply (compute_prefix_fuel_mono _ _ _ _ Hf); lia.
Qed.



(** With no more frames than blanks in front, [next_valid_token] ends in
    [RecursionError]. *)
Lemma next_valid_token_frames_blanks (frames : nat) :
  forall ws pre r : str,
    forallb is_blank ws = true ->
    (frames <= List.length ws + 1)%nat ->
    fst (next_valid_token_frames frames
           (lexer_rest (pre ++ ws ++ r) (ws ++ r)))
    = Raise RecursionError.
Proof.
  induction frames as [| frames IH]; intros ws pre r Hws Hn; [reflexivity |].
  cbn [next_valid_token_frames].
  destruct (Nat.eq_dec frames 0) as [-> | Hf]; [reflexivity |].
  rewrite getToken_frames_pos by lia.
  destruct ws as [| c ws]; [cbn [List.length] in Hn; lia |].
  cbn [forallb] in Hws; apply andb_true_iff in Hws; destruct Hws as [Hc Hws].
  cbn [app]; rewrite getToken_rest.
  destruct (scan_blank c (ws ++ r) Hc) as [k [-> Hk]]; cbn [fst snd kind].
  rewrite Hk.
  replace (pre ++ c :: ws ++ r) with ((pre ++ [c]) ++ ws ++ r)
    by (rewrite <- app_assoc; reflexivity).
  apply IH; [exact Hws | cbn [List.length] in Hn; lia].
Qed.

(** ** Blanks and the recursion limit *)


Lemma lexer_at (pre r : str) (p : Z) :
  p = len pre ->
  mkLexer (pre ++ r) p (len (pre ++ r)) = lexer_rest (pre ++ r) r.
Proof. intros ->; unfold lexer_rest; f_equal; rewrite len_app; lia. Qed.



Lemma compute_prefix_frames_blanks (frames : nat) (ws pre r : str) :
  forallb is_blank ws = true ->
  (frames <= List.length ws + 1)%nat ->
  fst (compute_prefix_frames frames (lexer_rest (pre ++ ws ++ r) (ws ++ r)))
  = Raise RecursionError.
Proof.
  intros Hws Hn; destruct frames as [| frames]; [reflexivity |].
  cbn [compute_prefix_frames].
  pose proof (next_valid_token_frames_blanks frames ws pre r Hws ltac:(lia))
    as H.
  destruct (next_valid_token_frames frames
              (lexer_rest (pre ++ ws ++ r) (ws ++ r))) as [o l].
  cbn [fst] in H; subst o; reflexivity.
Qed.

Lemma repeat_blank (c : char) (k : nat) :
  is_blank c = true -> forallb is_blank (repeat c k) = true.
Proof.
  intro Hc; induction k as [| k IH]; [reflexivity |].
  cbn [repeat forallb]; rewrite Hc, IH; reflexivity.
Qed.

(** C8: blanks in front of a token do change the result.
    [next_valid_token] calls itself once for each blank it drops, so when
    the blanks in front are at least as many as the nested calls the
    interpreter still allows, it ends in [RecursionError], and so does
    [compute_prefix]: with 1000 frames, the input "1" parses to the leaf 1,
    and the same input after 2000 spaces does not, while the generator of
    [tokens], which drops blanks in a loop, yields the token of "1". *)
Theorem next_valid_token_recursion_limit :
  (forall (frames : nat) (pre ws r : str),
     forallb is_blank ws = true ->
     (frames <= List.length ws + 1)%nat ->
     fst (next_valid_token_frames frames
            (mkLexer (pre ++ ws ++ r) (len pre) (len (pre ++ ws ++ r))))
     = Raise RecursionError
     /\ fst (compute_prefix_frames frames
               (mkLexer (pre ++ ws ++ r) (len pre) (len (pre ++ ws ++ r))))
        = Raise RecursionError)
  /\ compute_prefix_frames 1000 (Lexer_init (pystr "1"))
     = (Return (Num 1), mkLexer (pystr "1") 1 1)
  /\ fst (compute_prefix_frames 1000
            (Lexer_init (repeat (ord " ") 2000 ++ pystr "1")))
     = Raise RecursionError
  /\ tokens_next Suspended (Lexer_init (repeat (ord " ") 2000 ++ pystr "1"))
     = Some (Yield (mkToken (pystr "1") NUM), Suspended,
             mkLexer (repeat (ord " ") 2000 ++ pystr "1") 2001 2001).
Proof.
  split; [| split; [| split]].
  - intros frames pre ws r Hws Hn.
    rewrite (lexer_at pre (ws ++ r) (len pre) eq_refl).
    split;
      [exact (next_valid_token_frames_blanks frames ws pre r Hws Hn)
      | exact (compute_prefix_frames_blanks frames ws pre r Hws Hn)].
  - vm_compute; reflexivity.
  - rewrite Lexer_init_rest.
    apply (compute_prefix_frames_blanks 1000 (repeat (ord " ") 2000) []
             (pystr "1") (repeat_blank (ord " ") 2000 eq_refl)).
    rewrite repeat_length; lia.
  - vm_compute; reflexivity.
Qed.

Lemma next_valid_token_recursion_limit_witness :
  fst (next_valid_token_frames 3 (mkLexer (pystr "+   7") 1 5))
  = Raise RecursionError
  /\ fst (compute_prefix_frames 3 (mkLexer (pystr "+   7") 1 5))
     = Raise RecursionError.
Proof.
  exact (proj1 next_valid_token_recursion_limit 3%nat (pystr "+")
           (pystr "   ") (pystr "7") eq_refl ltac:(vm_compute; lia)).
Defined.



(** ** Numbers *)



























(** ** Further properties of [getToken] *)

Lemma scan_text (r : str) (tok : Token) (r' : str) :
  scan r = (Return tok, r') -> r = text tok ++ r'.
Proof.
  destruct r as [| a r]; cbn [scan].
  - intro H; injection H as <- <-; reflexivity.
  - destruct (isdigit a).
    + intro H; injection H as <- <-; cbn [text app]; f_equal.
      apply span_digits_app.
    + destruct (dict_get non_numeric_tokens a); [| discriminate].
      intro H; injection H as <- <-; reflexivity.
Qed.

Lemma wf_rest_cons (self : Lexer) (c : char) (r : str) :
  wf self -> rest self = c :: r ->
  getitem (input_string self) (position self) = Some c
  /\ lexer_rest (input_string self) r = set_position self (position self + 1).
Proof.
  intros Hwf Hr.
  pose proof (wf_lexer_rest self Hwf) as Hself; rewrite Hr in Hself.
  destruct (rest_suffix self) as [pre Hs]; rewrite Hr in Hs.
  remember (input_string self) as s eqn:E; clear E; subst self.
  split; [| symmetry; apply lexer_rest_advance].
  cbn [lexer_rest position]; rewrite Hs; apply getitem_rest.
Qed.

Lemma wf_position (self : Lexer) :
  wf self -> position self = length self - len (rest self).
Proof.
  intro Hwf; pose proof (wf_lexer_rest self Hwf) as H.
  apply (f_equal position) in H; cbn [lexer_rest position] in H.
  destruct Hwf as [-> _]; exact H.
Qed.

(** The text of the token that [getToken] returns is the part of the
    input between the position before the call and the position after. *)
Theorem getToken_text_is_consumed_input :
  forall (self self' : Lexer) (tok : Token),
    wf self ->
    getToken self = (Return tok, self') ->
    rest self = text tok ++ rest self'
    /\ position self' = position self + len (text tok).
Proof.
  intros self self' tok Hwf; rewrite (getToken_wf self Hwf).
  destruct (scan (rest self)) as [o r'] eqn:E; cbn [fst snd].
  intro H; injection H as -> <-.
  pose proof (scan_text _ _ _ E) as Ht.
  assert (Hs : suffix r' (input_string self)).
  { apply (suffix_trans _ (rest self)); [| apply rest_suffix].
    exists (text tok); exact Ht. }
  rewrite (rest_lexer_rest _ _ Hs); split; [exact Ht |].
  rewrite (wf_position self Hwf), Ht, len_app.
  cbn [lexer_rest position]; destruct Hwf as [-> _]; lia.
Qed.

Lemma getToken_text_is_consumed_input_witness :
  rest (mkLexer (pystr "+ 42 7") 2 6)
  = text (mkToken (pystr "42") NUM) ++ rest (mkLexer (pystr "+ 42 7") 4 6)
  /\ position (mkLexer (pystr "+ 42 7") 4 6)
     = position (mkLexer (pystr "+ 42 7") 2 6) + len (pystr "42").
Proof.
  apply (getToken_text_is_consumed_input (mkLexer (pystr "+ 42 7") 2 6)
           (mkLexer (pystr "+ 42 7") 4 6) (mkToken (pystr "42") NUM)).
  - split; [reflexivity | cbn; lia].
  - reflexivity.
Defined.

Lemma non_numeric_tokens_scan (c : char) (k : TokenType) (r : str) :
  In (c, k) non_numeric_tokens ->
  scan (c :: r) = (Return (mkToken [c] k), r).
Proof.
  intro H; unfold non_numeric_tokens in H; cbn [In] in H.
  repeat (destruct H as [H | H]; [injection H as <- <-; reflexivity |]).
  contradiction.
Qed.

(** Each of the eight characters of [non_numeric_tokens] is scanned as a
    token of its own: the text is the character, the kind is the one the
    dictionary gives, and the position moves by one.  None of them is taken
    for a digit. *)
Theorem getToken_single_character :
  forall (self : Lexer) (c : char) (k : TokenType),
    wf self ->
    getitem (input_string self) (position self) = Some c ->
    In (c, k) non_numeric_tokens ->
    getToken self
    = (Return (mkToken [c] k), set_position self (position self + 1)).
Proof.
  intros self c k Hwf Hc Hin.
  destruct (wf_getitem self c Hwf Hc) as [r Hr].
  rewrite (getToken_wf self Hwf), Hr, (non_numeric_tokens_scan c k r Hin).
  cbn [fst snd]; f_equal.
  exact (proj2 (wf_rest_cons self c r Hwf Hr)).
Qed.

Lemma getToken_single_character_witness :
  getToken (mkLexer (pystr "(1)") 2 3)
  = (Return (mkToken (pystr ")") RPR), mkLexer (pystr "(1)") 3 3).
Proof.
  apply (getToken_single_character (mkLexer (pystr "(1)") 2 3) (ord ")") RPR).
  - split; [reflexivity | cbn; lia].
  - reflexivity.
  - unfold non_numeric_tokens; cbn [In]; auto 10.
Defined.

Lemma dict_get_None_not_recognized (c : char) :
  dict_get non_numeric_tokens c = None -> ~ In c recognized.
Proof.
  intros Hd Hin; unfold recognized in Hin; cbn [In] in Hin.
  repeat (destruct Hin as [Hin | Hin]; [subst c; discriminate Hd |]).
  contradiction.
Qed.

(** On a lexer that satisfies the invariant, [getToken] either returns a
    token or raises the error for the character at the position, which is
    then neither a digit nor one of the eight recognized characters: the
    indexing of the input never fails. *)
Theorem getToken_outcomes :
  forall self : Lexer,
    wf self ->
    (exists tok self', getToken self = (Return tok, self'))
    \/ (exists c,
          getitem (input_string self) (position self) = Some c
          /\ isdigit c = false /\ ~ In c recognized
          /\ getToken self
             = (Raise (UnexpectedCharacter c),
                set_position self (position self + 1))).
Proof.
  intros self Hwf; rewrite (getToken_wf self Hwf).
  destruct (rest self) as [| c r] eqn:Hr; [left; cbn; eauto |].
  destruct (wf_rest_cons self c r Hwf Hr) as [Hc Hl].
  cbn [scan]; destruct (isdigit c) eqn:D; [left; cbn; eauto |].
  destruct (dict_get non_numeric_tokens c) as [k |] eqn:Hd; [left; cbn; eauto |].
  right; exists c; cbn [fst snd]; rewrite Hl.
  split; [exact Hc | split; [exact D | split; [| reflexivity]]].
  exact (dict_get_None_not_recognized c Hd).
Qed.

Lemma getToken_outcomes_witness :
  (exists tok self', getToken (Lexer_init (pystr "a+")) = (Return tok, self'))
  \/ (exists c,
        getitem (pystr "a+") 0 = Some c
        /\ isdigit c = false /\ ~ In c recognized
        /\ getToken (Lexer_init (pystr "a+"))
           = (Raise (UnexpectedCharacter c), mkLexer (pystr "a+") 1 2)).
Proof.
  apply (getToken_outcomes (Lexer_init (pystr "a+"))).
  split; [reflexivity | cbn; lia].
Defined.

(** ** The errors of [compute_prefix] *)

Lemma scan_raise (l : str) (e : exn) (l' : str) :
  scan l = (Raise e, l') ->
  exists c, l = c :: l' /\ isdigit c = false
            /\ dict_get non_numeric_tokens c = None
            /\ e = UnexpectedCharacter c.
Proof.
  destruct l as [| c l]; cbn [scan]; [discriminate |].
  destruct (isdigit c) eqn:D; [discriminate |].
  destruct (dict_get non_numeric_tokens c) eqn:Hd; [discriminate |].
  intro H; injection H as <- <-; exists c; auto.
Qed.

Lemma suffix_In (c : char) (r s : str) : suffix r s -> In c r -> In c s.
Proof. intros [pre ->] H; apply in_or_app; right; exact H. Qed.

Lemma parse_error_suffix (r s : str) (e : exn) :
  suffix r s -> parse_error r e -> parse_error s e.
Proof.
  intros Hs H; destruct H as [c Hin D Hn | k Hk | t Hd Hx | k Hk].
  - apply parse_error_character; [exact (suffix_In c r s Hs Hin) | | ];
      assumption.
  - apply parse_error_token; exact Hk.
  - apply parse_error_literal; assumption.
  - apply parse_error_limit; exact Hk.
Qed.

Lemma int_digits_None (t : str) :
  forall acc : Z, int_digits acc t = None -> forallb isdecimal t = false.
Proof.
  induction t as [| c t IH]; intros acc; cbn [int_digits forallb];
    [discriminate |].
  unfold isdecimal at 1; destruct (decimal_value c); [| reflexivity].
  intro H; exact (IH _ H).
Qed.

Lemma int_raise (t : str) (e : exn) :
  t <> [] -> int t = Raise e ->
  (e = InvalidLiteral t /\ forallb isdecimal t = false)
  \/ (exists k, (int_max_str_digits < k)%nat /\ e = ExceedsLimit k).
Proof.
  intros Hne; unfold int.
  destruct (leading_decimals t) as [| m] eqn:L.
  - intro H; injection H as <-; left; split; [reflexivity |].
    destruct t as [| c t]; [contradiction |].
    cbn [leading_decimals forallb] in *.
    destruct (isdecimal c); [discriminate | reflexivity].
  - destruct (int_max_str_digits <? S m)%nat eqn:E.
    + intro H; injection H as <-; right; exists (S m).
      apply Nat.ltb_lt in E; split; [exact E | reflexivity].
    + destruct (int_digits 0 t) eqn:Ei; [discriminate |].
      intro H; injection H as <-; left; split; [reflexivity |].
      exact (int_digits_None _ _ Ei).
Qed.

Lemma other_kinds (k : TokenType) :
  TokenType_eqb k NUM = false -> kind_in k operators = false ->
  kind_in k [WSP; NLN] = false -> In k [EOF; LPR; RPR].
Proof. destruct k; cbn; intros; try discriminate; auto. Qed.

Lemma prefix_rest_fuel_error (n : nat) :
  forall (r : str) (e : exn) (r' : str),
    prefix_rest_fuel n r = Some (Raise e, r') -> parse_error r e.
Proof.
  induction n as [| n IH]; intros r e r'; [discriminate |].
  cbn [prefix_rest_fuel].
  pose proof (scan_skip_blank_suffix r) as Hs1.
  destruct (scan (skip_blank r)) as [[tok | x] r1] eqn:E; cbn [snd] in Hs1.
  - pose proof (scan_skip_blank_kind _ _ _ E) as Hb.
    destruct (TokenType_eqb (kind tok) NUM) eqn:Hn.
    + apply TokenType_eqb_eq in Hn.
      destruct (getToken_NUM_text (skip_blank r) tok) as [Hne Hd];
        [rewrite E; reflexivity | exact Hn |].
      destruct (int (text tok)) as [v | x] eqn:Ei; [discriminate |].
      intro H; injection H as <- _.
      destruct (int_raise _ _ Hne Ei) as [[-> Hx] | [k [Hk ->]]].
      * apply parse_error_literal; [exact Hd | exact Hx].
      * apply parse_error_limit; exact Hk.
    + destruct (kind_in (kind tok) operators) eqn:Hop.
      * destruct (prefix_rest_fuel n r1) as [[[a | x] r2] |] eqn:E1;
          [| | discriminate].
        -- pose proof (suffix_trans _ _ _ (prefix_rest_fuel_suffix _ _ _ _ E1)
                         Hs1) as Hs2.
           destruct (prefix_rest_fuel n r2) as [[[b | x] r3] |] eqn:E2;
             [| | discriminate].
           ++ destruct (operators_operations_map _ Hop) as [operation ->].
              discriminate.
           ++ intro H; injection H as <- _.
              exact (parse_error_suffix _ _ _ Hs2 (IH _ _ _ E2)).
        -- intro H; injection H as <- _.
           exact (parse_error_suffix _ _ _ Hs1 (IH _ _ _ E1)).
      * intro H; injection H as <- _.
        apply parse_error_token, other_kinds; assumption.
  - intro H; injection H as <- _.
    destruct (scan_raise _ _ _ E) as [c [Hc [D [Hd ->]]]].
    apply parse_error_character;
      [| exact D | exact (dict_get_None_not_recognized c Hd)].
    apply (suffix_In c _ _ (skip_blank_suffix r)); rewrite Hc; left.
    reflexivity.
Qed.

(** When [compute_prefix] ends with an exception on a lexer that satisfies
    the invariant, the exception is [RecursionError] or one of four
    ValueErrors: for a character still to be read that is neither a digit
    nor recognized, for an EOF, LPR or RPR token, the one [int] raises for
    a run of digits that are not all decimal, or the one [int] raises for
    more digits than its limit.  The lookup in [operations_map] and the
    indexing of the input never fail. *)
Theorem compute_prefix_errors :
  forall (frames : nat) (self self' : Lexer) (e : exn),
    wf self ->
    compute_prefix_frames frames self = (Raise e, self') ->
    (e = RecursionError \/ parse_error (rest self) e)
    /\ e <> KeyError /\ e <> IndexError.
Proof.
  intros frames self self' e Hwf H.
  assert (Hp : e = RecursionError \/ parse_error (rest self) e).
  { destruct e as [msg | | |]; [right | right | right | left; reflexivity];
      (pose proof (compute_prefix_frames_ideal _ _ _ _ Hwf H
                     ltac:(discriminate)) as Hi;
       rewrite (compute_prefix_wf self Hwf) in Hi;
       destruct (prefix_rest (rest self)) as [[o r'] |] eqn:E;
       [| discriminate];
       cbn [lift_rest] in Hi; injection Hi as -> _;
       exact (prefix_rest_fuel_error _ _ _ _ E)). }
  split; [exact Hp |].
  destruct Hp as [-> | Hp]; [split; discriminate |].
  destruct Hp; split; discriminate.
Qed.

Lemma compute_prefix_errors_witness :
  (ValueError (pystr "Unexpected character: ?") = RecursionError
   \/ parse_error (rest (Lexer_init (pystr "+ 1 ?")))
        (ValueError (pystr "Unexpected character: ?")))
  /\ ValueError (pystr "Unexpected character: ?") <> KeyError
  /\ ValueError (pystr "Unexpected character: ?") <> IndexError.
Proof.
  apply (compute_prefix_errors 10 (Lexer_init (pystr "+ 1 ?"))
           (mkLexer (pystr "+ 1 ?") 5 5)).
  - split; [reflexivity | cbn; lia].
  - reflexivity.
Defined.

(** ** Inputs of blanks only *)


Lemma dict_get_not_EOF (c : char) (k : TokenType) :
  dict_get non_numeric_tokens c = Some k -> k <> EOF.
Proof.
  unfold dict_get, non_numeric_tokens; cbn [find fst snd].
  repeat match goal with
         | |- context [(?a =? c)%N] =>
             destruct (a =? c)%N;
             [intro Hk; injection Hk as <-; discriminate |]
         end.
  discriminate.
Qed.

Lemma scan_EOF (l : str) (tok : Token) (l' : str) :
  scan l = (Return tok, l') -> kind tok = EOF -> l = [].
Proof.
  destruct l as [| c l]; [reflexivity |]; cbn [scan].
  destruct (isdigit c).
  - intro H; injection H as <- _; discriminate.
  - destruct (dict_get non_numeric_tokens c) as [k |] eqn:Hd; [| discriminate].
    intro H; injection H as <- _; cbn [kind]; intro Hk.
    exfalso; exact (dict_get_not_EOF c k Hd Hk).
Qed.





(** ** The leaves of a parsed tree *)

Lemma decimal_value_nonneg (c : char) (d : Z) :
  decimal_value c = Some d -> 0 <= d.
Proof.
  unfold decimal_value; destruct (find (in_range c) decimal_ranges);
    [| discriminate].
  intro H; injection H as <-; apply N2Z.is_nonneg.
Qed.

Lemma int_digits_nonneg (t : str) :
  forall acc v : Z, 0 <= acc -> int_digits acc t = Some v -> 0 <= v.
Proof.
  induction t as [| c t IH]; intros acc v Ha; cbn [int_digits].
  - intro H; injection H as <-; exact Ha.
  - destruct (decimal_value c) as [d |] eqn:Hd; [| discriminate].
    pose proof (decimal_value_nonneg c d Hd).
    apply IH; lia.
Qed.

Lemma int_nonneg (t : str) (v : Z) : int t = Return v -> 0 <= v.
Proof.
  unfold int; destruct (leading_decimals t); [discriminate |].
  destruct (int_max_str_digits <? S n)%nat; [discriminate |].
  destruct (int_digits 0 t) as [w |] eqn:E; [| discriminate].
  intro H; injection H as <-.
  exact (int_digits_nonneg t 0 w ltac:(lia) E).
Qed.

Lemma operations_map_leaves (k : TokenType)
  (operation : Expression -> Expression -> Expression) (a b : Expression) :
  operations_map k = Some operation ->
  leaves_nonneg (operation a b) = leaves_nonneg a && leaves_nonneg b.
Proof.
  destruct k; cbn [operations_map]; try discriminate;
    intro H; injection H as <-; reflexivity.
Qed.

(** [compute_prefix] never returns a tree with a negative leaf, whatever
    the lexer it is given: a '-' in the input is always the operator. *)
Theorem compute_prefix_leaves_nonneg :
  forall (n : nat) (self self' : Lexer) (e : Expression),
    compute_prefix_fuel n self = Some (Return e, self') ->
    leaves_nonneg e = true.
Proof.
  induction n as [| n IH]; intros self self' e; [discriminate |].
  cbn [compute_prefix_fuel].
  destruct (next_valid_token self) as [[[tok | x] l1] |];
    [| discriminate | discriminate].
  destruct (TokenType_eqb (kind tok) NUM).
  - destruct (int (text tok)) as [v |] eqn:Ev; [| discriminate].
    intro H; injection H as <- _; cbn [leaves_nonneg].
    apply Z.leb_le; exact (int_nonneg _ _ Ev).
  - destruct (kind_in (kind tok) operators); [| discriminate].
    destruct (compute_prefix_fuel n l1) as [[[a | x] l2] |] eqn:E1;
      [| discriminate | discriminate].
    destruct (compute_prefix_fuel n l2) as [[[b | x] l3] |] eqn:E2;
      [| discriminate | discriminate].
    destruct (operations_map (kind tok)) as [operation |] eqn:Eo;
      [| discriminate].
    intro H; injection H as <- _.
    rewrite (operations_map_leaves _ _ a b Eo), (IH _ _ _ E1), (IH _ _ _ E2).
    reflexivity.
Qed.

Lemma compute_prefix_leaves_nonneg_witness :
  leaves_nonneg (Sub (Num 0) (Num 5)) = true.
Proof.
  exact (compute_prefix_leaves_nonneg 3 (Lexer_init (pystr "-0 5"))
           (mkLexer (pystr "-0 5") 4 4) (Sub (Num 0) (Num 5)) eq_refl).
Defined.

(** ** The generator [tokens] *)

Lemma tokens_resume_fuel_spec (n : nat) :
  forall self : Lexer,
    tokens_resume_fuel n self
    = match next_valid_token_fuel n self with
      | Some (o, self') => Some (item_of o, self')
      | None => None
      end.
Proof.
  induction n as [| n IH]; intro self; [reflexivity |].
  cbn [tokens_resume_fuel next_valid_token_fuel].
  destruct (getToken self) as [[tok | e] l]; [| reflexivity].
  destruct (TokenType_eqb (kind tok) EOF) eqn:E.
  - pose proof E as Hk; apply TokenType_eqb_eq in Hk.
    replace (kind_in (kind tok) [WSP; NLN]) with false
      by (rewrite Hk; reflexivity).
    cbn [item_of]; rewrite E; reflexivity.
  - destruct (kind_in (kind tok) [WSP; NLN]); [apply IH |].
    cbn [item_of]; rewrite E; reflexivity.
Qed.

Lemma tokens_next_spec (self : Lexer) :
  tokens_next Suspended self
  = match next_valid_token self with
    | Some (Return tok, self') =>
        if TokenType_eqb (kind tok) EOF
        then Some (StopIteration, Finished, self')
        else Some (Yield tok, Suspended, self')
    | Some (Raise e, self') => Some (Throw e, Finished, self')
    | None => None
    end.
Proof.
  unfold tokens_next, next_valid_token.
  rewrite tokens_resume_fuel_spec.
  destruct (next_valid_token_fuel (depth self) self) as [[[tok | e] l] |];
    [| reflexivity | reflexivity].
  cbn [item_of]; destruct (TokenType_eqb (kind tok) EOF); reflexivity.
Qed.




Lemma tokens_list_fuel_rest (n : nat) :
  forall s r : str,
    suffix r s ->
    tokens_list_fuel n Suspended (lexer_rest s r)
    = lift_tokens s (tokens_rest_fuel n r).
Proof.
  induction n as [| n IH]; intros s r Hs; [reflexivity |].
  cbn [tokens_list_fuel tokens_rest_fuel].
  rewrite tokens_next_spec, (next_valid_token_suffix s r Hs).
  pose proof (suffix_trans _ _ _ (scan_skip_blank_suffix r) Hs) as Hs1.
  destruct (scan (skip_blank r)) as [[tok | e] r1]; cbn [fst snd] in *;
    [| reflexivity].
  destruct (TokenType_eqb (kind tok) EOF); [reflexivity |].
  rewrite (IH s r1 Hs1).
  destruct (tokens_rest_fuel n r1) as [[[ts x] r2] |]; reflexivity.
Qed.

Lemma skip_blank_split (r : str) :
  exists bl, r = bl ++ skip_blank r /\ forallb is_blank bl = true.
Proof.
  induction r as [| c r IH]; [exists []; split; reflexivity |].
  cbn [skip_blank]; destruct (is_blank c) eqn:Hb.
  - destruct IH as [bl [H1 H2]]; exists (c :: bl); cbn [app forallb].
    rewrite Hb, H2; split; [f_equal; exact H1 | reflexivity].
  - exists []; split; reflexivity.
Qed.

Lemma drop_blanks_app (a b : str) :
  drop_blanks (a ++ b) = drop_blanks a ++ drop_blanks b.
Proof. apply filter_app. Qed.

Lemma drop_blanks_blank (bl : str) :
  forallb is_blank bl = true -> drop_blanks bl = [].
Proof.
  induction bl as [| c bl IH]; [reflexivity |].
  cbn [forallb]; intro H; apply andb_true_iff in H; destruct H as [Hc Hb].
  unfold drop_blanks; cbn [filter]; rewrite Hc; exact (IH Hb).
Qed.

Lemma drop_blanks_digits (t : str) :
  forallb isdigit t = true -> drop_blanks t = t.
Proof.
  induction t as [| c t IH]; [reflexivity |].
  cbn [forallb]; intro H; apply andb_true_iff in H; destruct H as [Hc Ht].
  unfold drop_blanks; cbn [filter].
  destruct (is_blank c) eqn:Hb.
  - rewrite (is_blank_not_digit c Hb) in Hc; discriminate.
  - cbn [negb]; f_equal; exact (IH Ht).
Qed.

(** The text of a token that is no WSP and no NLN holds no blank. *)
Lemma scan_text_no_blank (l : str) (tok : Token) (l' : str) :
  scan l = (Return tok, l') ->
  kind_in (kind tok) [WSP; NLN] = false ->
  drop_blanks (text tok) = text tok.
Proof.
  destruct l as [| c l]; cbn [scan].
  - intro H; injection H as <- _; reflexivity.
  - destruct (isdigit c) eqn:D.
    + intro H; injection H as <- _; intros _; cbn [text].
      apply drop_blanks_digits; cbn [forallb]; rewrite D.
      apply digit_run_digits.
    + destruct (is_blank c) eqn:Hb.
      * destruct (scan_blank c l Hb) as [k [Hs Hk]].
        cbn [scan] in Hs; rewrite D in Hs.
        destruct (dict_get non_numeric_tokens c); [| discriminate].
        intro H; rewrite Hs in H; injection H as <- _; cbn [kind].
        rewrite Hk; discriminate.
      * destruct (dict_get non_numeric_tokens c); [| discriminate].
        intro H; injection H as <- _; intros _; cbn [text].
        unfold drop_blanks; cbn [filter]; rewrite Hb; reflexivity.
Qed.

(** What the iteration over the remaining characters [r] gives. *)
Lemma tokens_rest_fuel_spec (n : nat) :
  forall (r : str) (ts : list Token) (x : option exn) (r' : str),
    tokens_rest_fuel n r = Some (ts, x, r') ->
    (forall t, In t ts ->
               kind_in (kind t) [EOF; WSP; NLN] = false /\ text t <> [])
    /\ match x with
       | None => texts ts = drop_blanks r /\ r' = []
       | Some e =>
           exists pre c,
             r = pre ++ c :: r' /\ texts ts = drop_blanks pre
             /\ isdigit c = false /\ ~ In c recognized
             /\ e = UnexpectedCharacter c
       end.
Proof.
  induction n as [| n IH]; intros r ts x r'; [discriminate |].
  cbn [tokens_rest_fuel].
  destruct (skip_blank_split r) as [bl [Hr Hbl]].
  pose proof (drop_blanks_blank bl Hbl) as Hd.
  destruct (scan (skip_blank r)) as [[tok | e] r1] eqn:E.
  - destruct (TokenType_eqb (kind tok) EOF) eqn:Ek.
    + intro H; injection H as <- <- <-.
      apply TokenType_eqb_eq in Ek.
      pose proof (scan_EOF _ _ _ E Ek) as Hnil; rewrite Hnil in E, Hr.
      cbn [scan] in E; injection E as _ <-.
      split; [intros t []|].
      rewrite Hr, drop_blanks_app, Hd; split; reflexivity.
    + destruct (tokens_rest_fuel n r1) as [[[ts1 x1] r2] |] eqn:E1;
        [| discriminate].
      intro H; injection H as <- <- <-.
      destruct (IH _ _ _ _ E1) as [Hsig Hx].
      pose proof (scan_skip_blank_kind _ _ _ E) as Hb.
      pose proof (scan_text _ _ _ E) as Ht.
      pose proof (scan_text_no_blank _ _ _ E Hb) as Hnb.
      assert (Hk : kind tok <> EOF).
      { intro Hk; rewrite Hk in Ek; discriminate. }
      pose proof (scan_advance _ _ _ E Hk) as Ha.
      split.
      * intros t [<- | Hin]; [| exact (Hsig t Hin)].
        split.
        -- destruct (kind tok); try reflexivity; try discriminate Hb.
           contradiction.
        -- intro Hnil; rewrite Ht, Hnil in Ha; cbn [app] in Ha; lia.
      * unfold texts in *; cbn [map List.concat].
        destruct x1 as [e |].
        -- destruct Hx as [pre [c [H1 [H2 [H3 [H4 H5]]]]]].
           exists (bl ++ text tok ++ pre), c.
           split; [| split; [| auto]].
           ++ rewrite Hr, Ht, H1, <- !app_assoc; reflexivity.
           ++ rewrite !drop_blanks_app, Hd, Hnb, H2; reflexivity.
        -- destruct Hx as [H1 H2]; split; [| exact H2].
           rewrite Hr at 1; rewrite Ht, !drop_blanks_app, Hd, Hnb, H1.
           reflexivity.
  - intro H; injection H as <- <- <-.
    destruct (scan_raise _ _ _ E) as [c [Hc [D [Hn ->]]]].
    split; [intros t []|].
    exists bl, c; rewrite <- Hc.
    split; [exact Hr | split; [symmetry; exact Hd |]].
    split; [exact D | split; [| reflexivity]].
    exact (dict_get_None_not_recognized c Hn).
Qed.

Lemma tokens_rest_fuel_total (n : nat) :
  forall r : str,
    (List.length r < n)%nat -> exists x, tokens_rest_fuel n r = Some x.
Proof.
  induction n as [| n IH]; intros r Hn; [lia |].
  cbn [tokens_rest_fuel].
  destruct (scan (skip_blank r)) as [[tok | e] r1] eqn:E; [| eauto].
  destruct (TokenType_eqb (kind tok) EOF) eqn:Ek; [eauto |].
  assert (Hk : kind tok <> EOF).
  { intro Hk; rewrite Hk in Ek; discriminate. }
  pose proof (scan_advance _ _ _ E Hk).
  pose proof (suffix_length _ _ (skip_blank_suffix r)).
  destruct (IH r1 ltac:(lia)) as [[[ts x] r2] ->]; eauto.
Qed.

Lemma tokens_list_wf (self : Lexer) :
  wf self ->
  tokens_list self = lift_tokens (input_string self) (tokens_rest (rest self)).
Proof.
  intro Hwf; pose proof (rest_suffix self) as Hs.
  unfold tokens_list, tokens_rest.
  rewrite (wf_lexer_rest self Hwf) at 1 2.
  rewrite (depth_lexer_rest _ _ Hs).
  apply tokens_list_fuel_rest; exact Hs.
Qed.

Lemma tokens_rest_suffix (n : nat) :
  forall (r : str) (ts : list Token) (x : option exn) (r' : str),
    tokens_rest_fuel n r = Some (ts, x, r') -> suffix r' r.
Proof.
  induction n as [| n IH]; intros r ts x r'; [discriminate |].
  cbn [tokens_rest_fuel].
  pose proof (scan_skip_blank_suffix r) as Hs.
  destruct (scan (skip_blank r)) as [[tok | e] r1]; cbn [snd] in Hs.
  - destruct (TokenType_eqb (kind tok) EOF);
      [intro H; injection H as _ _ <-; exact Hs |].
    destruct (tokens_rest_fuel n r1) as [[[ts1 x1] r2] |] eqn:E1;
      [| discriminate].
    intro H; injection H as _ _ <-.
    exact (suffix_trans _ _ _ (IH _ _ _ _ E1) Hs).
  - intro H; injection H as _ _ <-; exact Hs.
Qed.

(** Iterating [tokens] to the end always ends.  When it ends without an
    exception, the texts of the tokens received, put together, are the
    remaining input without its spaces and newlines, and the position is
    at the length.  When it ends with an exception, it is the error for a
    character that is neither a digit nor recognized; the texts are the
    input before that character without its blanks, and the position is
    just after it. *)
Theorem tokens_list_lossless :
  forall self : Lexer,
    wf self ->
    exists ts x self',
      tokens_list self = Some (ts, x, self')
      /\ match x with
         | None =>
             texts ts = drop_blanks (rest self)
             /\ position self' = length self'
         | Some e =>
             exists pre c,
               rest self = pre ++ c :: rest self'
               /\ texts ts = drop_blanks pre
               /\ isdigit c = false /\ ~ In c recognized
               /\ e = UnexpectedCharacter c
         end.
Proof.
  intros self Hwf; rewrite (tokens_list_wf self Hwf).
  destruct (tokens_rest_fuel_total (S (List.length (rest self))) (rest self)
              ltac:(lia)) as [[[ts x] r'] E].
  unfold tokens_rest; rewrite E; cbn [lift_tokens].
  exists ts, x, (lexer_rest (input_string self) r'); split; [reflexivity |].
  destruct (tokens_rest_fuel_spec _ _ _ _ _ E) as [_ Hx].
  pose proof (suffix_trans _ _ _ (tokens_rest_suffix _ _ _ _ _ E)
                (rest_suffix self)) as Hs.
  rewrite (rest_lexer_rest _ _ Hs).
  destruct x as [e |].
  - exact Hx.
  - destruct Hx as [H1 ->]; split; [exact H1 |].
    cbn [lexer_rest position length]; rewrite len_nil; lia.
Qed.

Lemma tokens_list_lossless_witness :
  exists ts x self',
    tokens_list (Lexer_init (pystr "1 2 +")) = Some (ts, x, self')
    /\ match x with
       | None =>
           texts ts = drop_blanks (rest (Lexer_init (pystr "1 2 +")))
           /\ position self' = length self'
       | Some e =>
           exists pre c,
             rest (Lexer_init (pystr "1 2 +")) = pre ++ c :: rest self'
             /\ texts ts = drop_blanks pre
             /\ isdigit c = false /\ ~ In c recognized
             /\ e = UnexpectedCharacter c
       end.
Proof.
  apply (tokens_list_lossless (Lexer_init (pystr "1 2 +"))).
  split; [reflexivity | cbn; lia].
Defined.

(** The generator of [tokens] yields no EOF, WSP or NLN token and no token
    with an empty text. *)
Theorem tokens_list_significant :
  forall (self self' : Lexer) (ts : list Token) (x : option exn) (t : Token),
    wf self ->
    tokens_list self = Some (ts, x, self') ->
    In t ts ->
    kind_in (kind t) [EOF; WSP; NLN] = false /\ text t <> [].
Proof.
  intros self self' ts x t Hwf; rewrite (tokens_list_wf self Hwf).
  destruct (tokens_rest (rest self)) as [[[ts1 x1] r'] |] eqn:E;
    [| discriminate].
  cbn [lift_tokens]; intro H; injection H as <- _ _.
  exact (proj1 (tokens_rest_fuel_spec _ _ _ _ _ E) t).
Qed.

Lemma tokens_list_significant_witness :
  kind_in NUM [EOF; WSP; NLN] = false /\ pystr "2" <> [].
Proof.
  apply (tokens_list_significant (Lexer_init (pystr "1 2 +"))
           (mkLexer (pystr "1 2 +") 5 5)
           [mkToken (pystr "1") NUM; mkToken (pystr "2") NUM;
            mkToken (pystr "+") ADD]
           None (mkToken (pystr "2") NUM)).
  - split; [reflexivity | cbn; lia].
  - reflexivity.
  - right; left; reflexivity.
Defined.

(** ** Writing a tree and reading it back *)







(** ** The tokens of a parsed tree *)

Lemma tokens_rest_fuel_mono (n : nat) :
  forall (r : str) (y : list Token * option exn * str) (m : nat),
    tokens_rest_fuel n r = Some y -> (n <= m)%nat ->
    tokens_rest_fuel m r = Some y.
Proof.
  induction n as [| n IH]; intros r y m; [discriminate |].
  intros H Hm; destruct m as [| m]; [lia |].
  cbn [tokens_rest_fuel] in *.
  destruct (scan (skip_blank r)) as [[tok | e] r1]; [| exact H].
  destruct (TokenType_eqb (kind tok) EOF); [exact H |].
  destruct (tokens_rest_fuel n r1) as [y1 |] eqn:E1; [| discriminate].
  rewrite (IH _ _ m E1 ltac:(lia)); exact H.
Qed.

Lemma tokens_rest_fuel_det (n m : nat) (r : str)
  (y z : list Token * option exn * str) :
  tokens_rest_fuel n r = Some y -> tokens_rest_fuel m r = Some z -> y = z.
Proof.
  intros Hy Hz.
  pose proof (tokens_rest_fuel_mono _ _ _ (n + m) Hy ltac:(lia)) as H1.
  pose proof (tokens_rest_fuel_mono _ _ _ (n + m) Hz ltac:(lia)) as H2.
  rewrite H1 in H2; injection H2 as H2; exact H2.
Qed.

Lemma prefix_rest_fuel_tokens (n : nat) :
  forall (r : str) (e : Expression) (r' : str),
    prefix_rest_fuel n r = Some (Return e, r') ->
    exists toks,
      spells e toks
      /\ forall (m : nat) (ts : list Token) (x : option exn) (r'' : str),
           tokens_rest_fuel m r' = Some (ts, x, r'') ->
           tokens_rest_fuel (List.length toks + m) r
           = Some (toks ++ ts, x, r'').
Proof.
  induction n as [| n IH]; intros r e r'; [discriminate |].
  cbn [prefix_rest_fuel].
  destruct (scan (skip_blank r)) as [[tok | y] r1] eqn:E; [| discriminate].
  destruct (TokenType_eqb (kind tok) NUM) eqn:Hn.
  - destruct (int (text tok)) as [v |] eqn:Ev; [| discriminate].
    intro H; injection H as <- <-.
    apply TokenType_eqb_eq in Hn.
    exists [tok]; split; [exact (spells_num tok v Hn Ev) |].
    intros m ts x r'' Hm; cbn [List.length Nat.add app tokens_rest_fuel].
    rewrite E, Hn, Hm; reflexivity.
  - destruct (kind_in (kind tok) operators) eqn:Hop; [| discriminate].
    destruct (prefix_rest_fuel n r1) as [[[a | y] r2] |] eqn:E1;
      [| discriminate | discriminate].
    destruct (prefix_rest_fuel n r2) as [[[b | y] r3] |] eqn:E2;
      [| discriminate | discriminate].
    destruct (operations_map (kind tok)) as [operation |] eqn:Eo;
      [| discriminate].
    intro H; injection H as <- <-.
    destruct (IH _ _ _ E1) as [ta [Hsa Ha]].
    destruct (IH _ _ _ E2) as [tb [Hsb Hb]].
    exists (tok :: ta ++ tb); split; [exact (spells_op _ _ _ _ _ _ Eo Hsa Hsb) |].
    intros m ts x r'' Hm.
    cbn [List.length Nat.add app tokens_rest_fuel]; rewrite E.
    assert (Hk : TokenType_eqb (kind tok) EOF = false).
    { destruct (TokenType_eqb (kind tok) EOF) eqn:Ek; [| reflexivity].
      apply TokenType_eqb_eq in Ek; exfalso.
      exact (operators_not_EOF _ Hop Ek). }
    rewrite Hk, length_app, <- Nat.add_assoc.
    rewrite (Ha _ _ _ _ (Hb _ _ _ _ Hm)), app_assoc; reflexivity.
Qed.

(** When [compute_prefix] returns a tree, the tokens that [tokens] gives
    from the state before the call are the tree read in prefix order (an
    operator token, then the tokens of the left operand, then those of the
    right one, a NUM token for each leaf) followed by the tokens that
    [tokens] gives from the state the call leaves, and both iterations end
    in the same way. *)
Theorem compute_prefix_reads_prefix_order :
  forall (self self' : Lexer) (e : Expression),
    wf self ->
    compute_prefix self = Some (Return e, self') ->
    exists toks,
      spells e toks
      /\ forall (ts : list Token) (x : option exn) (l : Lexer),
           tokens_list self' = Some (ts, x, l) ->
           tokens_list self = Some (toks ++ ts, x, l).
Proof.
  intros self self' e Hwf; rewrite (compute_prefix_wf self Hwf).
  destruct (prefix_rest (rest self)) as [[o r'] |] eqn:E; [| discriminate].
  cbn [lift_rest]; intro H; injection H as -> <-.
  pose proof (suffix_trans _ _ _ (prefix_rest_suffix _ _ _ E)
                (rest_suffix self)) as Hs.
  destruct (prefix_rest_fuel_tokens _ _ _ _ E) as [toks [Hsp Ht]].
  exists toks; split; [exact Hsp |].
  intros ts x l.
  rewrite (tokens_list_wf _ (lexer_rest_wf _ _ Hs)), (tokens_list_wf _ Hwf).
  rewrite (rest_lexer_rest _ _ Hs); cbn [lexer_rest input_string].
  destruct (tokens_rest r') as [[[ts1 x1] r''] |] eqn:E1; [| discriminate].
  cbn [lift_tokens]; intro H; injection H as <- <- <-.
  pose proof (Ht _ _ _ _ E1) as H1.
  destruct (tokens_rest_fuel_total (S (List.length (rest self))) (rest self)
              ltac:(lia)) as [z Hz].
  unfold tokens_rest; rewrite Hz.
  rewrite (tokens_rest_fuel_det _ _ _ _ _ Hz H1); reflexivity.
Qed.

Lemma compute_prefix_reads_prefix_order_witness :
  exists toks,
    spells (Add (Num 1) (Num 2)) toks
    /\ forall (ts : list Token) (x : option exn) (l : Lexer),
         tokens_list (mkLexer (pystr "+ 1 2 3") 5 7) = Some (ts, x, l) ->
         tokens_list (Lexer_init (pystr "+ 1 2 3")) = Some (toks ++ ts, x, l).
Proof.
  apply (compute_prefix_reads_prefix_order (Lexer_init (pystr "+ 1 2 3"))
           (mkLexer (pystr "+ 1 2 3") 5 7) (Add (Num 1) (Num 2))).
  - split; [reflexivity | cbn; lia].
  - reflexivity.
Defined.

(** ** Characters appended after an error *)

Lemma skip_blank_app_ne (t u : str) :
  skip_blank u <> [] -> skip_blank (u ++ t) = skip_blank u ++ t.
Proof.
  induction u as [| a u IH]; cbn [skip_blank app]; [contradiction |].
  destruct (is_blank a); [exact IH | reflexivity].
Qed.

Lemma scan_skip_blank_raise_ext (t u : str) (e : exn) (u' : str) :
  scan (skip_blank u) = (Raise e, u') ->
  scan (skip_blank (u ++ t)) = (Raise e, u' ++ t).
Proof.
  intro E; destruct (scan_raise _ _ _ E) as [c [Hc [D [Hd ->]]]].
  rewrite skip_blank_app_ne by (rewrite Hc; discriminate).
  rewrite Hc; cbn [app scan]; rewrite D, Hd; reflexivity.
Qed.

Lemma prefix_rest_fuel_nil_raise (n : nat) (e : exn) (r : str) :
  prefix_rest_fuel n [] = Some (Raise e, r) -> e = UnexpectedToken EOF.
Proof.
  destruct n; [discriminate |]; cbn.
  intro H; injection H as <- _; reflexivity.
Qed.

Lemma prefix_rest_fuel_raise_ext (t : str) (n : nat) :
  forall (u : str) (e : exn) (u' : str),
    prefix_rest_fuel n u = Some (Raise e, u') ->
    e <> UnexpectedToken EOF ->
    u' <> [] \/ head_isdigit t = false ->
    prefix_rest_fuel n (u ++ t) = Some (Raise e, u' ++ t).
Proof.
  induction n as [| n IH]; intros u e u'; [discriminate |].
  cbn [prefix_rest_fuel].
  destruct (scan (skip_blank u)) as [[tok | x] u1] eqn:E.
  - destruct (TokenType_eqb (kind tok) NUM) eqn:Hnum.
    + destruct (int (text tok)) as [v |] eqn:Ev; [discriminate |].
      intros H He Ht; injection H as <- <-.
      rewrite (scan_skip_blank_ext t u tok u1 E
                 (TokenType_eqb_NUM_not_EOF _ Hnum) Ht), Hnum, Ev.
      reflexivity.
    + destruct (kind_in (kind tok) operators) eqn:Hop.
      * destruct (prefix_rest_fuel n u1) as [[[a | x] u2] |] eqn:E1;
          [| | discriminate].
        -- destruct (prefix_rest_fuel n u2) as [[[b | x] u3] |] eqn:E2;
             [| | discriminate].
           ++ destruct (operations_map (kind tok)) eqn:Eo;
                [discriminate |].
              destruct (operators_operations_map _ Hop) as [o Ho].
              rewrite Ho in Eo; discriminate.
           ++ intros H He Ht; injection H as <- <-.
              assert (H1 : u1 <> [])
                by (intros ->; exact (prefix_rest_fuel_nil _ _ _ E1)).
              assert (H2 : u2 <> []).
              { intros ->; apply He.
                exact (prefix_rest_fuel_nil_raise _ _ _ E2). }
              rewrite (scan_skip_blank_ext t u tok u1 E
                         (operators_not_EOF _ Hop) (or_introl H1)), Hnum, Hop.
              rewrite (prefix_rest_fuel_ext t n u1 a u2 E1 (or_introl H2)).
              rewrite (IH u2 x u3 E2 He Ht); reflexivity.
        -- intros H He Ht; injection H as <- <-.
           assert (H1 : u1 <> []).
           { intros ->; apply He.
             exact (prefix_rest_fuel_nil_raise _ _ _ E1). }
           rewrite (scan_skip_blank_ext t u tok u1 E
                      (operators_not_EOF _ Hop) (or_introl H1)), Hnum, Hop.
           rewrite (IH u1 x u2 E1 He Ht); reflexivity.
      * intros H He Ht; injection H as <- <-.
        assert (Hk : kind tok <> EOF).
        { intro Hk; apply He; rewrite Hk; reflexivity. }
        rewrite (scan_skip_blank_ext t u tok u1 E Hk Ht), Hnum, Hop.
        reflexivity.
  - intros H _ _; injection H as <- <-.
    rewrite (scan_skip_blank_raise_ext t u x u1 E); reflexivity.
Qed.

(** An error of [compute_prefix] other than the one for EOF does not
    depend on the characters that follow the place where it was raised:
    the same input followed by further characters ends with the same
    exception at the same position (the further characters must not
    continue a number that ends the input). *)
Theorem compute_prefix_error_ignores_rest :
  forall (s t : str) (e : exn) (self' : Lexer),
    compute_prefix (Lexer_init s) = Some (Raise e, self') ->
    e <> UnexpectedToken EOF ->
    position self' < length self' \/ head_isdigit t = false ->
    compute_prefix (Lexer_init (s ++ t))
    = Some (Raise e, mkLexer (s ++ t) (position self') (len (s ++ t))).
Proof.
  intros s t e self' H He Ht.
  destruct (compute_prefix_init_inv s _ _ H) as [r' [E [-> Hs]]].
  assert (Ht' : r' <> [] \/ head_isdigit t = false).
  { destruct Ht as [Hp | Hd]; [left | right; exact Hd].
    intros ->; cbn [lexer_rest position length] in Hp; rewrite len_nil in Hp.
    lia. }
  rewrite compute_prefix_init.
  rewrite <- (prefix_rest_fuel_enough (S (List.length (s ++ t)))) by lia.
  rewrite (prefix_rest_fuel_raise_ext t _ s e r'); [| | exact He | exact Ht'].
  - cbn [lift_rest]; unfold lexer_rest; cbn [position].
    do 3 f_equal; rewrite !len_app; lia.
  - apply (prefix_rest_fuel_mono _ _ _ _ E); rewrite length_app; lia.
Qed.

Lemma compute_prefix_error_ignores_rest_witness :
  compute_prefix (Lexer_init (pystr "* 2 (" ++ pystr " 3 4)"))
  = Some (Raise (UnexpectedToken LPR),
          mkLexer (pystr "* 2 (" ++ pystr " 3 4)") 5 10).
Proof.
  apply (compute_prefix_error_ignores_rest (pystr "* 2 (") (pystr " 3 4)")
           (UnexpectedToken LPR) (mkLexer (pystr "* 2 (") 5 5) eq_refl).
  - discriminate.
  - right; reflexivity.
Defined.
